(** * Polysynth: the voice synthesis engine of [src/main.cpp]

    A shallow embedding of the synthesiser core: envelope, waveform
    generators, unison/detune engine, bit-crush and compressor effects, the
    per-voice sample stage, and the voice pool with its note-on / note-off
    mutators.

    Numeric model.  The C++ types [float] and [double] are idealised as the
    real numbers [R] (no rounding, no NaN, no infinities); [int] is [Z] and
    the conversions [(float)i] are [IZR].  The cast [(int)x] truncates toward
    zero.  Comparisons of reals are the decision procedures of the Standard
    Library ([Rlt_dec], [Rgt_dec]), so every branch of the source is kept as a
    branch of the model.  Global variables of the program are gathered in two
    records: [Settings] for the configuration scalars and [Synth] for the
    mutable synthesis state (voice array and the two compressor
    accumulators). *)

From Stdlib Require Import Reals Lra Lia ZArith List.
From stdpp Require Import base decidable option list.

Open Scope R_scope.

(** ** Scalar helpers (main.cpp, lines 46-64) *)

Definition min (a b : R) : R := if Rgt_dec a b then b else a.

Definition max (a b : R) : R := if Rgt_dec a b then a else b.

Definition clamp (val mi ma : R) : R := max (min val ma) mi.

Definition lerp (from to amt : R) : R := from + ((to - from) * amt).

(** The C cast [(int)x]: the integer part of [x], rounded toward zero. *)
Definition truncate (x : R) : Z :=
  if Rle_dec 0 x then Int_part x else (- Int_part (- x))%Z.

Definition roundToInt (val : R) : Z :=
  truncate (if Rlt_dec val 0 then val - 0.5 else val + 0.5).

(** [fmod x y] of the C library: [x - n*y] with [n] the quotient [x/y]
    truncated toward zero, so the result has the sign of [x]. *)
Definition fmod (x y : R) : R := x - IZR (truncate (x / y)) * y.

(** [abs] on a floating argument. *)
Definition abs (x : R) : R := Rabs x.

(** ** Envelope model (main.cpp, lines 39-78) *)

Record ADSRCurve : Type := mkADSRCurve {
  attackTime : R;
  curveReleaseTime : R;  (* [ADSRCurve::releaseTime]; the voice has a field of that name *)
  sustainAmount : R;
  decayTime : R
}.

(** The default member initialisers of [struct ADSRCurve]. *)
Definition defaultCurve : ADSRCurve :=
  {| attackTime := 0.01;
     curveReleaseTime := 0.1;
     sustainAmount := 0.8;
     decayTime := 0.65 |}.

Definition getADSAttenuation (curve : ADSRCurve) (time : R) : R :=
  let decayStart := attackTime curve in
  let decayProgress := clamp ((time - decayStart) / decayTime curve) 0 1 in
  let decayed := lerp 1 (sustainAmount curve) decayProgress in
  clamp (time / attackTime curve) 0 1 * decayed.

Definition getRAttenuation (curve : ADSRCurve) (time : R) : R :=
  clamp (1 - (time / curveReleaseTime curve)) 0 1 * sustainAmount curve.

(** ** Waveform generators (main.cpp, lines 15-21 and 117-144) *)

Inductive Waveform : Type := W_Sine | W_Saw | W_Square | W_Triangle.

Definition WaveFunc : Type := R -> R -> R.

Definition saw (t freq : R) : R := (fmod (t * freq) 1 * 2) - 1.

Definition sine (t freq : R) : R := sin (t * PI * freq * 2).

Definition square (t freq : R) : R :=
  if Rgt_dec (sine t freq) 0 then 1 else -1.

Definition triangle (t freq : R) : R := abs (saw t freq) * 2 - 1.

(** The table [waveFuncs], indexed by the enumeration. *)
Definition waveFuncs (w : Waveform) : WaveFunc :=
  match w with
  | W_Sine => sine
  | W_Saw => saw
  | W_Square => square
  | W_Triangle => triangle
  end.

(** ** Effects (main.cpp, lines 104-115 and 228-239) *)

(** [powf (2.0f, bits)]. *)
Definition powf (x y : R) : R := Rpower x y.

Definition bitcrush (value bits : R) : R :=
  let distinctValues := powf 2 bits in
  let crushedVal := (value + 1) * 0.5 in
  let intVal := roundToInt (crushedVal * distinctValues) in
  IZR intVal / distinctValues.

Definition squarify (value : R) : R := if Rgt_dec value 0 then 1 else -1.

(** [lowpass] writes through its reference parameter [accum]; the model
    returns the returned value together with the new content of the
    referenced cell. *)
Definition lowpass (accum val q : R) : R * R :=
  let accum' := accum - (q * (accum - val)) in
  (accum', accum').

(** [compressor (float& accum, float val, float magic)] calls
    [lowpass (val, accum, magic)]: the reference parameter of [lowpass] is
    bound to the local copy [val], and the cell behind [accum] is only read.
    The model returns the returned sample and the content of the cell behind
    [accum] after the call. *)
Definition compressor (accum val magic : R) : R * R :=
  let '(ret, val') := lowpass val accum magic in
  let peak := abs ret in
  ((1 - peak) * val', accum).

(** ** Global settings (main.cpp, lines 83-102) *)

Record Settings : Type := mkSettings {
  unisonDetune : bool;
  unisonOrder : Z;
  unisonDetuneAmount : R;
  crushBits : R;
  enableBitcrush : bool;
  goofyUnison : bool;
  enableCompressor : bool;
  masterVolume : R;      (* the global [volume]; the name is taken by the voice field *)
  currWaveFunc : Waveform
}.

(** The initialisers of the global variables. *)
Definition defaultSettings : Settings :=
  {| unisonDetune := false;
     unisonOrder := 16;
     unisonDetuneAmount := 0.0025;
     crushBits := 16;
     enableBitcrush := false;
     goofyUnison := false;
     enableCompressor := false;
     masterVolume := 1;
     currWaveFunc := W_Sine |}.

(** ** Utilities and the unison/detune engine (main.cpp, lines 149-196) *)

(** MIDI pitch to frequency. *)
Definition pitch (p : R) : R := powf 1.059460646483 (p - 69) * 440.

(** Frequency offset for a given unison tap.  [unisonOrder / 2] is a division
    of two [int]s. *)
Definition getDetune (s : Settings) (voiceIdx detune : R) : R :=
  let perVoiceDetune := detune / IZR (unisonOrder s) in
  if goofyUnison s then
    (voiceIdx - IZR (Z.quot (unisonOrder s) 2)) * perVoiceDetune
  else
    voiceIdx * (sin (voiceIdx / IZR (unisonOrder s)) * detune).

Definition getUnisonVoicePan (s : Settings) (voiceIdx : R) : R :=
  (voiceIdx / IZR (unisonOrder s)) * 2 - 1.

Definition panToLVol (pan : R) : R := if Rlt_dec pan 0 then 1 else 1 - pan.

Definition panToRVol (pan : R) : R := if Rgt_dec pan 0 then 1 else 1 + pan.

(** The sample of tap [i], as computed in the body of the loop of
    [doUnisonDetune]. *)
Definition unisonVoiceSample (s : Settings) (t freq : R) (waveFunc : WaveFunc)
    (i : Z) : R :=
  if negb (goofyUnison s) then
    waveFunc t (freq + (freq * getDetune s (IZR i) (unisonDetuneAmount s)))
  else
    waveFunc t (freq + (freq * getDetune s (IZR i)
                              (unisonDetuneAmount s / IZR (unisonOrder s)))).

(** The detune offset of tap [i]: the value of the call of [getDetune] in the
    loop body, whose second argument depends on the mode. *)
Definition tapDetune (s : Settings) (i : Z) : R :=
  if negb (goofyUnison s) then
    getDetune s (IZR i) (unisonDetuneAmount s)
  else
    getDetune s (IZR i) (unisonDetuneAmount s / IZR (unisonOrder s)).

(** [n] iterations of the loop of [doUnisonDetune], starting at index [i]
    with the output cells holding [out]. *)
Fixpoint unisonLoop (s : Settings) (t freq : R) (waveFunc : WaveFunc)
    (n : nat) (i : Z) (out : R * R) : R * R :=
  match n with
  | O => out
  | S k =>
      let voiceSample := unisonVoiceSample s t freq waveFunc i in
      let pan := getUnisonVoicePan s (IZR i) in
      unisonLoop s t freq waveFunc k (i + 1)
        (fst out + voiceSample * panToLVol pan,
         snd out + voiceSample * panToRVol pan)
  end.

(** Performs unison detuning on a given wave function; [out] is the content
    of the two output cells on entry. *)
Definition doUnisonDetune (s : Settings) (out : R * R) (t freq : R)
    (waveFunc : WaveFunc) : R * R :=
  let out' := unisonLoop s t freq waveFunc (Z.to_nat (unisonOrder s)) 0 out in
  (fst out' / IZR (unisonOrder s), snd out' / IZR (unisonOrder s)).

(** Settings with unison order 1 and the square generator, used in the
    examples below. *)
Definition orderOneSettings (unison : bool) : Settings :=
  {| unisonDetune := unison; unisonOrder := 1;
     unisonDetuneAmount := 0.0025; crushBits := 16;
     enableBitcrush := false; goofyUnison := false;
     enableCompressor := false; masterVolume := 1;
     currWaveFunc := W_Square |}.

(** ** Voices (main.cpp, lines 30-37 and 80-81) *)

Record PolyphonicVoice : Type := mkVoice {
  note : Z;
  finishedPlaying : bool;
  freq : R;
  volume : R;
  pressTime : R;
  releaseTime : R
}.

Definition NUM_VOICES : nat := 16.

(** [voices] has static storage duration and no initialiser: every member of
    every element is zero-initialised. *)
Definition zeroVoice : PolyphonicVoice :=
  {| note := 0; finishedPlaying := false; freq := 0; volume := 0;
     pressTime := 0; releaseTime := 0 |}.

Definition initialVoices : list PolyphonicVoice := replicate NUM_VOICES zeroVoice.

(** ** Polyphonic voice utilities (main.cpp, lines 201-226) *)

Definition Rgtb (x y : R) : bool := if Rgt_dec x y then true else false.

(** The search loop shared by the three utilities:
    [for (i = i0; i < i0 + n; i++) if (p (voices[i])) return i;].
    A read past the end of the list (impossible for a pool of [NUM_VOICES]
    slots) ends the search. *)
Fixpoint firstVoice (p : PolyphonicVoice -> bool)
    (voices : list PolyphonicVoice) (i : nat) (n : nat) : option nat :=
  match n with
  | O => None
  | S k =>
      match voices !! i with
      | Some v => if p v then Some i else firstVoice p voices (S i) k
      | None => None
      end
  end.

Definition getFreeVoiceIdx (voices : list PolyphonicVoice) : Z :=
  match firstVoice finishedPlaying voices 0 NUM_VOICES with
  | Some i => Z.of_nat i
  | None => 0
  end.

Definition getVoiceWithNote (voices : list PolyphonicVoice) (n : Z) : Z :=
  match firstVoice (fun v => Z.eqb (note v) n && Rgtb (volume v) 0)
          voices 0 NUM_VOICES with
  | Some i => Z.of_nat i
  | None => -1
  end.

Definition noteAlreadyDown (voices : list PolyphonicVoice) (n : Z) : bool :=
  match firstVoice (fun v => Rgtb (volume v) 0 && Z.eqb (note v) n)
          voices 0 NUM_VOICES with
  | Some _ => true
  | None => false
  end.

(** ** Note events (main.cpp, lines 377-406) *)

(** The five assignments of [setNoteOn] to the claimed slot. *)
Definition pressVoice (n : Z) (currTime : R) (v : PolyphonicVoice)
    : PolyphonicVoice :=
  {| note := n;
     finishedPlaying := false;
     freq := pitch (IZR n);
     volume := 1;
     pressTime := currTime;
     releaseTime := releaseTime v |}.

Definition setNoteOn (n : Z) (currTime : R) (voices : list PolyphonicVoice)
    : list PolyphonicVoice :=
  if noteAlreadyDown voices n then voices
  else
    let voiceSlot := getFreeVoiceIdx voices in
    alter (pressVoice n currTime) (Z.to_nat voiceSlot) voices.

(** The two assignments in the body of the loop of [setNoteOff]. *)
Definition releaseVoice (currTime : R) (v : PolyphonicVoice) : PolyphonicVoice :=
  {| note := note v;
     finishedPlaying := finishedPlaying v;
     freq := freq v;
     volume := 0;
     pressTime := pressTime v;
     releaseTime := currTime |}.

(** One pass through the body of [while (true)]: [None] is the [break]. *)
Definition setNoteOffStep (n : Z) (currTime : R)
    (voices : list PolyphonicVoice) : option (list PolyphonicVoice) :=
  let voiceSlot := getVoiceWithNote voices n in
  if Z.eqb voiceSlot (-1) then None
  else Some (alter (releaseVoice currTime) (Z.to_nat voiceSlot) voices).

(** The loop of [setNoteOff], run for at most [fuel] passes: [Some] is the
    pool on leaving the loop, [None] means the loop was still running. *)
Fixpoint setNoteOff (fuel : nat) (n : Z) (currTime : R)
    (voices : list PolyphonicVoice) : option (list PolyphonicVoice) :=
  match fuel with
  | O => None
  | S k =>
      match setNoteOffStep n currTime voices with
      | None => Some voices
      | Some voices' => setNoteOff k n currTime voices'
      end
  end.

(** ** The per-voice sample stage (main.cpp, lines 241-292) *)

(** The mutable synthesis state: the voice array and the two global low-pass
    accumulators [lLpAccum] and [rLpAccum]. *)
Record Synth : Type := mkSynth {
  voices : list PolyphonicVoice;
  lLpAccum : R;
  rLpAccum : R
}.

Definition initialSynth : Synth :=
  {| voices := initialVoices; lLpAccum := 0; rLpAccum := 0 |}.

Definition markFinished (v : PolyphonicVoice) : PolyphonicVoice :=
  {| note := note v;
     finishedPlaying := true;
     freq := freq v;
     volume := volume v;
     pressTime := pressTime v;
     releaseTime := releaseTime v |}.

(** The raw stereo pair of step 2: the unison engine, entered with both
    output cells at zero, or the selected generator on both channels. *)
Definition rawSample (s : Settings) (v : PolyphonicVoice) (sampleTime : R)
    : R * R :=
  if unisonDetune s then
    doUnisonDetune s (0, 0) sampleTime (freq v) (waveFuncs (currWaveFunc s))
  else
    let lOut := waveFuncs (currWaveFunc s) sampleTime (freq v) in
    (lOut, lOut).

(** The attenuation of step 3 and the voice after the release-completion
    test.  The curve is the default-constructed local [ADSRCurve curve]. *)
Definition voiceAttenuation (v : PolyphonicVoice) (sampleTime : R)
    : R * PolyphonicVoice :=
  let curve := defaultCurve in
  if Rgt_dec (volume v) 0.25 then
    (getADSAttenuation curve (sampleTime - pressTime v), v)
  else
    let attenuation := getRAttenuation curve (sampleTime - releaseTime v) in
    if orb (if Req_dec_T attenuation 0 then true else false)
           (Rgtb sampleTime (releaseTime v + curveReleaseTime curve))
    then (attenuation, markFinished v)
    else (attenuation, v).

(** Generates a pair of audio samples for a given voice index.  The result is
    the pair written to [lOut], [rOut] and the state after the call.  An
    index outside the array (never passed by the render loop) is modelled as
    silence. *)
Definition getVoiceSample (s : Settings) (st : Synth) (voiceIdx : nat)
    (sampleTime : R) : (R * R) * Synth :=
  match voices st !! voiceIdx with
  | None => ((0, 0), st)
  | Some v =>
      if finishedPlaying v then ((0, 0), st)
      else
        let '(lOut, rOut) := rawSample s v sampleTime in
        let '(attenuation, v') := voiceAttenuation v sampleTime in
        let voices' := <[voiceIdx := v']> (voices st) in
        let lOut := lOut * attenuation in
        let rOut := rOut * attenuation in
        let lOut := lOut * masterVolume s in
        let rOut := rOut * masterVolume s in
        let '(lOut, rOut) :=
          if enableBitcrush s
          then (bitcrush lOut (crushBits s), bitcrush rOut (crushBits s))
          else (lOut, rOut) in
        if enableCompressor s then
          let '(lOut, lAcc) := compressor (lLpAccum st) lOut 0.05 in
          let '(rOut, rAcc) := compressor (rLpAccum st) rOut 0.05 in
          ((lOut, rOut),
           {| voices := voices'; lLpAccum := lAcc; rLpAccum := rAcc |})
        else
          ((lOut, rOut),
           {| voices := voices';
              lLpAccum := lLpAccum st; rLpAccum := rLpAccum st |})
  end.

(** The voice loop of [audioCallback] for one output frame (lines 309-321):
    [n] voices starting at slot [j] are rendered in index order, each scaled
    by 0.25 and added to the frame. *)
Fixpoint mixVoices (s : Settings) (sampleTime : R) (n : nat) (j : nat)
    (frame : R * R) (st : Synth) : (R * R) * Synth :=
  match n with
  | O => (frame, st)
  | S k =>
      let '((l, r), st') := getVoiceSample s st j sampleTime in
      let l := l * 0.25 in
      let r := r * 0.25 in
      mixVoices s sampleTime k (S j) (fst frame + l, snd frame + r) st'
  end.

Definition renderFrame (s : Settings) (sampleTime : R) (st : Synth)
    : (R * R) * Synth :=
  mixVoices s sampleTime NUM_VOICES 0 (0, 0) st.

(** ** Predicates used in the statements *)

(** A voice holds note [n]: its gate is up and it carries [n]. *)
Definition holds (n : Z) (v : PolyphonicVoice) : bool :=
  Z.eqb (note v) n && Rgtb (volume v) 0.

Definition b2n (b : bool) : nat := if b then 1%nat else 0%nat.

(** Number of voices of the pool holding [n]. *)
Definition heldCount (n : Z) (voices : list PolyphonicVoice) : nat :=
  length (List.filter (holds n) voices).

(** Number of voices that hold [n] and are not finished. *)
Definition activeCount (n : Z) (voices : list PolyphonicVoice) : nat :=
  length (List.filter (fun v => holds n v && negb (finishedPlaying v)) voices).

(** A held, unfinished voice for note [n], pressed at time 0. *)
Definition heldVoice (n : Z) : PolyphonicVoice :=
  {| note := n; finishedPlaying := false; freq := pitch (IZR n);
     volume := 1; pressTime := 0; releaseTime := 0 |}.

(** The key handler toggles [enableCompressor]; this sets it to [b]. *)
Definition setCompressor (b : bool) (s : Settings) : Settings :=
  {| unisonDetune := unisonDetune s;
     unisonOrder := unisonOrder s;
     unisonDetuneAmount := unisonDetuneAmount s;
     crushBits := crushBits s;
     enableBitcrush := enableBitcrush s;
     goofyUnison := goofyUnison s;
     enableCompressor := b;
     masterVolume := masterVolume s;
     currWaveFunc := currWaveFunc s |}.

(** A pool in which every slot has finished playing. *)
Definition idlePool : list PolyphonicVoice :=
  replicate NUM_VOICES (markFinished zeroVoice).

(** The notes 60 .. 75. *)
Definition sixteenNotes : list Z :=
  (60 :: 61 :: 62 :: 63 :: 64 :: 65 :: 66 :: 67 :: 68 :: 69 :: 70 :: 71
      :: 72 :: 73 :: 74 :: 75 :: nil)%Z.

(** Successive note-on events at time 0. *)
Definition pressAll (notes : list Z) (voices : list PolyphonicVoice)
    : list PolyphonicVoice :=
  fold_left (fun vs n => setNoteOn n 0 vs) notes voices.

(** A fully occupied pool: the sixteen notes 60 .. 75, one per slot. *)
Definition fullPool : list PolyphonicVoice := List.map heldVoice sixteenNotes.

(** ** Input handlers (main.cpp, lines 23-28, 486-557 and 705-735) *)

Inductive OctaveMode : Type := Single | Double | Triple | Quadruple.

(** [(int)octaveMode]. *)
Definition octaveInt (o : OctaveMode) : Z :=
  match o with Single => 0 | Double => 1 | Triple => 2 | Quadruple => 3 end.

(** The keypad-multiply handler: the mode is incremented and wraps to
    [Single] once it passes [Quadruple]. *)
Definition nextOctaveMode (o : OctaveMode) : OctaveMode :=
  match o with
  | Single => Double
  | Double => Triple
  | Triple => Quadruple
  | Quadruple => Single
  end.

(** The right-mouse-button handler: the next waveform, wrapping at
    [W_Count]. *)
Definition nextWaveform (w : Waveform) : Waveform :=
  match w with
  | W_Sine => W_Saw
  | W_Saw => W_Square
  | W_Square => W_Triangle
  | W_Triangle => W_Sine
  end.

(** The keypad-7 and keypad-1 handlers on [crushBits]. *)
Definition crushBitsUp (bits : R) : R := clamp (bits + 0.1) 1 31.

Definition crushBitsDown (bits : R) : R := clamp (bits - 0.1) 1 31.

(** [setNoteOff] as called by the handlers: the loop with one pass of fuel
    more than there are slots in the pool. *)
Definition noteOff (n : Z) (currTime : R) (voices : list PolyphonicVoice)
    : option (list PolyphonicVoice) :=
  setNoteOff (S NUM_VOICES) n currTime voices.

(** The key-down branch of the event loop for the looked-up [n]. *)
Definition keyDown (o : OctaveMode) (n : Z) (currTime : R)
    (voices : list PolyphonicVoice) : list PolyphonicVoice :=
  let voices := setNoteOn n currTime voices in
  match o with
  | Single => voices
  | Double => setNoteOn (n + 12) currTime voices
  | Triple =>
      setNoteOn (n + 24) currTime (setNoteOn (n + 12) currTime voices)
  | Quadruple =>
      setNoteOn (n + 36) currTime
        (setNoteOn (n + 24) currTime (setNoteOn (n + 12) currTime voices))
  end.

(** The key-up branch of the event loop. *)
Definition keyUp (o : OctaveMode) (n : Z) (currTime : R)
    (voices : list PolyphonicVoice) : option (list PolyphonicVoice) :=
  voices ← noteOff n currTime voices;
  match o with
  | Single => Some voices
  | Double => noteOff (n + 12) currTime voices
  | Triple =>
      voices ← noteOff (n + 12) currTime voices;
      noteOff (n + 24) currTime voices
  | Quadruple =>
      voices ← noteOff (n + 12) currTime voices;
      voices ← noteOff (n + 24) currTime voices;
      noteOff (n + 36) currTime voices
  end.

(** The two loops of [midiCallback] over the octave layers: [k] passes,
    entered with the running [oOffset]. *)
Fixpoint midiOnLoop (k : nat) (key oOffset offset : Z) (currTime : R)
    (voices : list PolyphonicVoice) : list PolyphonicVoice :=
  match k with
  | O => voices
  | S k' =>
      let oOffset := (oOffset + 12)%Z in
      midiOnLoop k' key oOffset offset currTime
        (setNoteOn (key + oOffset + offset) currTime voices)
  end.

Fixpoint midiOffLoop (k : nat) (key oOffset offset : Z) (currTime : R)
    (voices : list PolyphonicVoice) : option (list PolyphonicVoice) :=
  match k with
  | O => Some voices
  | S k' =>
      let oOffset := (oOffset + 12)%Z in
      voices ← noteOff (key + oOffset + offset) currTime voices;
      midiOffLoop k' key oOffset offset currTime voices
  end.

(** [midiCallback] on the bytes of [message]; [offset] is the global
    transposition and [timeAccumulator] the DSP clock used as time stamp. *)
Definition midiCallback (o : OctaveMode) (offset : Z) (timeAccumulator : R)
    (message : list Z) (voices : list PolyphonicVoice)
    : option (list PolyphonicVoice) :=
  match message with
  | status :: key :: vel :: nil =>
      if Z.eqb status 144 then
        let currTime := timeAccumulator in
        if negb (Z.eqb vel 0) then
          Some (midiOnLoop (Z.to_nat (octaveInt o)) key 0 offset currTime
                  (setNoteOn (key + offset) currTime voices))
        else
          voices ← noteOff (key + offset) currTime voices;
          midiOffLoop (Z.to_nat (octaveInt o)) key 0 offset currTime voices
      else Some voices
  | _ => Some voices
  end.

(** The attenuation shown for a voice by the visualisation (main.cpp, lines
    570-578). *)
Definition displayAttenuation (v : PolyphonicVoice) (currTime : R) : R :=
  let curve := defaultCurve in
  if Req_dec_T (volume v) 0 then
    getRAttenuation curve (currTime - releaseTime v)
  else
    getADSAttenuation curve (currTime - pressTime v).

(** ** The render callback (main.cpp, lines 294-334) *)

Record Device : Type := mkDevice {
  nChannels : Z;
  currentSampleRate : Z
}.

(** The state touched by [audioCallback]: the synthesis state, the DSP clock,
    the two diagnostics, the output buffer [stream] and the two history
    buffers. *)
Record Mixer : Type := mkMixer {
  synth : Synth;
  timeAccumulator : R;
  hasClipped : bool;
  maxAmplitude : R;
  stream : list R;
  lastBufferL : list R;
  lastBufferR : list R
}.

(** The body of the frame loop at buffer index [i].  The two cells of the
    frame are zeroed and then receive the sum of the voices, so they end up
    holding the pair computed by [mixVoices]; a write past the end of a
    buffer is dropped. *)
Definition frameBody (d : Device) (s : Settings) (i : Z) (m : Mixer) : Mixer :=
  let sampleTime :=
    IZR (Z.quot i (nChannels d)) / IZR (currentSampleRate d)
    + timeAccumulator m in
  let '((l, r), st) := mixVoices s sampleTime NUM_VOICES 0 (0, 0) (synth m) in
  {| synth := st;
     timeAccumulator := timeAccumulator m;
     hasClipped :=
       if orb (Rgtb l 1) (if Rlt_dec l (-1) then true else false)
       then true else hasClipped m;
     maxAmplitude := max (abs l) (maxAmplitude m);
     stream := <[Z.to_nat (i + 1) := r]> (<[Z.to_nat i := l]> (stream m));
     lastBufferL := <[Z.to_nat (Z.quot i (nChannels d)) := l]> (lastBufferL m);
     lastBufferR := <[Z.to_nat (Z.quot i (nChannels d)) := r]> (lastBufferR m) |}.

(** [for (i = i0; i < sampleLen; i += nChannels)], for at most [fuel]
    passes. *)
Fixpoint callbackLoop (d : Device) (s : Settings) (sampleLen : Z)
    (fuel : nat) (i : Z) (m : Mixer) : Mixer :=
  match fuel with
  | O => m
  | S k =>
      if (i <? sampleLen)%Z
      then callbackLoop d s sampleLen k (i + nChannels d) (frameBody d s i m)
      else m
  end.

(** [audioCallback] for a buffer of [len] bytes.  The loop gets [sampleLen]
    passes of fuel, which it cannot use up when [nChannels] is positive. *)
Definition audioCallback (d : Device) (s : Settings) (len : Z) (m : Mixer)
    : Mixer :=
  let sampleLen := (len / 4)%Z in
  let m0 :=
    {| synth := synth m; timeAccumulator := timeAccumulator m;
       hasClipped := false; maxAmplitude := 0;
       stream := stream m;
       lastBufferL := lastBufferL m; lastBufferR := lastBufferR m |} in
  let m1 := callbackLoop d s sampleLen (Z.to_nat sampleLen) 0 m0 in
  {| synth := synth m1;
     timeAccumulator :=
       timeAccumulator m1
       + IZR (Z.quot sampleLen (nChannels d)) / IZR (currentSampleRate d);
     hasClipped := hasClipped m1; maxAmplitude := maxAmplitude m1;
     stream := stream m1;
     lastBufferL := lastBufferL m1; lastBufferR := lastBufferR m1 |}.

(** The device as opened by [main]: two channels at 44100 Hz. *)
Definition defaultDevice : Device :=
  {| nChannels := 2; currentSampleRate := 44100 |}.

(** ** Definitions used in the further statements *)

(** What the sample stage does to the voice it renders. *)
Definition stageVoice (sampleTime : R) (v : PolyphonicVoice) : PolyphonicVoice :=
  if finishedPlaying v then v else snd (voiceAttenuation v sampleTime).

(** The gate of a voice is exactly 0 or exactly 1. *)
Definition gateOK (v : PolyphonicVoice) : Prop := volume v = 0 \/ volume v = 1.

(** The pool invariant: sixteen slots, every gate 0 or 1, and no note held
    by two voices. *)
Definition PoolInv (voices : list PolyphonicVoice) : Prop :=
  length voices = NUM_VOICES /\
  Forall gateOK voices /\
  forall n, (heldCount n voices <= 1)%nat.

(** The calls that reach the synthesis state, in the order they happen. *)
Inductive Event : Type :=
  | EvNoteOn (n : Z) (t : R)
  | EvNoteOff (n : Z) (t : R)
  | EvFrame (s : Settings) (sampleTime : R).

Definition applyEvent (e : Event) (st : Synth) : option Synth :=
  match e with
  | EvNoteOn n t =>
      Some {| voices := setNoteOn n t (voices st);
              lLpAccum := lLpAccum st; rLpAccum := rLpAccum st |}
  | EvNoteOff n t =>
      vs ← noteOff n t (voices st);
      Some {| voices := vs; lLpAccum := lLpAccum st; rLpAccum := rLpAccum st |}
  | EvFrame s sampleTime => Some (snd (renderFrame s sampleTime st))
  end.

Fixpoint runEvents (es : list Event) (st : Synth) : option Synth :=
  match es with
  | nil => Some st
  | e :: es' => st' ← applyEvent e st; runEvents es' st'
  end.

(** A pool with note 60 held in slot 0 and fifteen finished slots. *)
Definition oneHeldPool : list PolyphonicVoice :=
  heldVoice 60 :: replicate 15 (markFinished zeroVoice).

(** What [noteOff] does to a single voice: a voice that holds the note is
    released at [currTime], any other voice is left alone. *)
Definition releaseIfHolds (n : Z) (currTime : R) (v : PolyphonicVoice)
    : PolyphonicVoice :=
  if holds n v then releaseVoice currTime v else v.

(** The settings under which the level of a voice is bounded: a generator
    bounded for every input, a master volume of magnitude at most 1, a
    positive unison order, and both effects switched off. *)
Definition plainSettings (s : Settings) : Prop :=
  (currWaveFunc s = W_Sine \/ currWaveFunc s = W_Square) /\
  Rabs (masterVolume s) <= 1 /\
  (0 < unisonOrder s)%Z /\
  enableBitcrush s = false /\ enableCompressor s = false.

(** Number of voices of the pool that have not finished playing. *)
Definition unfinishedCount (voices : list PolyphonicVoice) : nat :=
  length (List.filter (fun v => negb (finishedPlaying v)) voices).

(** The mixer state at program start, with a buffer of [n] cells holding
    [x] handed over by the audio device. *)
Definition initialMixer (n : nat) (x : R) : Mixer :=
  {| synth := initialSynth; timeAccumulator := 0;
     hasClipped := false; maxAmplitude := 0;
     stream := replicate n x;
     lastBufferL := replicate 1024 0; lastBufferR := replicate 1024 0 |}.

(** The same with every voice finished. *)
Definition idleMixer (n : nat) (x : R) : Mixer :=
  {| synth := {| voices := idlePool; lLpAccum := 0; rLpAccum := 0 |};
     timeAccumulator := 0;
     hasClipped := false; maxAmplitude := 0;
     stream := replicate n x;
     lastBufferL := replicate 1024 0; lastBufferR := replicate 1024 0 |}.

(** The notes a key triggers in an octave mode: the note itself and one
    more per extra layer, twelve semitones apart. *)
Definition octaveLayers (o : OctaveMode) (n : Z) : list Z :=
  match o with
  | Single => n :: nil
  | Double => n :: (n + 12)%Z :: nil
  | Triple => n :: (n + 12)%Z :: (n + 24)%Z :: nil
  | Quadruple => n :: (n + 12)%Z :: (n + 24)%Z :: (n + 36)%Z :: nil
  end.

(** The pool after releasing, at [currTime], the holders of each note of
    [ms] in turn. *)
Definition releaseAll (ms : list Z) (currTime : R)
    (voices : list PolyphonicVoice) : list PolyphonicVoice :=
  fold_left (fun vs m => List.map (releaseIfHolds m currTime) vs) ms voices.

(** * Properties *)

(** ** Scalar helpers *)

Lemma min_cases (a b : R) : (a > b /\ min a b = b) \/ (a <= b /\ min a b = a).
Proof. unfold min. destruct (Rgt_dec a b); [left | right]; split; lra. Qed.

Lemma max_cases (a b : R) : (a > b /\ max a b = a) \/ (a <= b /\ max a b = b).
Proof. unfold max. destruct (Rgt_dec a b); [left | right]; split; lra. Qed.

Ltac clamp_cases v lo hi :=
  unfold clamp;
  destruct (min_cases v hi) as [[? ->] | [? ->]];
  match goal with
  | |- context [max ?m lo] => destruct (max_cases m lo) as [[? ->] | [? ->]]
  end.

Lemma clamp_below (v lo hi : R) : lo <= hi -> v <= lo -> clamp v lo hi = lo.
Proof. intros; clamp_cases v lo hi; lra. Qed.

Lemma clamp_above (v lo hi : R) : lo <= hi -> hi <= v -> clamp v lo hi = hi.
Proof. intros; clamp_cases v lo hi; lra. Qed.

Lemma clamp_inside (v lo hi : R) : lo <= v <= hi -> clamp v lo hi = v.
Proof. intros; clamp_cases v lo hi; lra. Qed.

Lemma clamp_range (v lo hi : R) : lo <= hi -> lo <= clamp v lo hi <= hi.
Proof. intros; clamp_cases v lo hi; lra. Qed.

Lemma div_nonpos (a b : R) : 0 < b -> a <= 0 -> a / b <= 0.
Proof.
  intros Hb Ha. unfold Rdiv.
  assert (0 < / b) by (apply Rinv_0_lt_compat; exact Hb). nra.
Qed.

Lemma div_nonneg (a b : R) : 0 < b -> 0 <= a -> 0 <= a / b.
Proof.
  intros Hb Ha. unfold Rdiv.
  assert (0 < / b) by (apply Rinv_0_lt_compat; exact Hb). nra.
Qed.

Lemma div_le_1 (a b : R) : 0 < b -> a <= b -> a / b <= 1.
Proof.
  intros Hb Ha. apply (Rmult_le_reg_r b); [exact Hb|].
  unfold Rdiv. rewrite Rmult_assoc, Rinv_l by lra. lra.
Qed.

Lemma div_ge_1 (a b : R) : 0 < b -> b <= a -> 1 <= a / b.
Proof.
  intros Hb Ha. apply (Rmult_le_reg_r b); [exact Hb|].
  unfold Rdiv. rewrite Rmult_assoc, Rinv_l by lra. lra.
Qed.

Lemma div_le_mono (a b c : R) : 0 < c -> a <= b -> a / c <= b / c.
Proof.
  intros Hc Hab. unfold Rdiv.
  assert (0 < / c) by (apply Rinv_0_lt_compat; exact Hc). nra.
Qed.

(** Truncation toward zero of a number of magnitude below one. *)
Lemma truncate_small (x : R) : -1 < x < 1 -> truncate x = 0%Z.
Proof.
  intros [Hlo Hhi]. unfold truncate. destruct (Rle_dec 0 x) as [Hx | Hx].
  - symmetry. apply Int_part_spec. lra.
  - assert (E : Int_part (- x) = 0%Z)
      by (symmetry; apply Int_part_spec; lra).
    rewrite E. reflexivity.
Qed.

Lemma truncate_nonneg_frac (x : R) :
  0 <= x -> 0 <= x - IZR (truncate x) < 1.
Proof.
  intros Hx. unfold truncate. destruct (Rle_dec 0 x) as [_ | N]; [|lra].
  destruct (base_fp x) as [H1 H2]. unfold frac_part in H1, H2. lra.
Qed.

(** ** Envelope *)

Section Envelope.

Variable curve : ADSRCurve.
Hypothesis attack_pos : 0 < attackTime curve.
Hypothesis decay_pos : 0 < decayTime curve.

(** During the attack the decay factor is 1 and the result is the ramp. *)
Lemma ads_attack (t : R) :
  0 <= t <= attackTime curve ->
  getADSAttenuation curve t = t / attackTime curve.
Proof using attack_pos decay_pos.
  intros [H0 H1]. unfold getADSAttenuation, lerp.
  rewrite (clamp_below ((t - attackTime curve) / decayTime curve))
    by (try lra; apply div_nonpos; lra).
  rewrite clamp_inside by (split; [apply div_nonneg | apply div_le_1]; lra).
  ring.
Qed.

(** During the decay the attack factor is saturated at 1. *)
Lemma ads_decay (t : R) :
  attackTime curve <= t <= attackTime curve + decayTime curve ->
  getADSAttenuation curve t =
  1 + (sustainAmount curve - 1) * ((t - attackTime curve) / decayTime curve).
Proof using attack_pos decay_pos.
  intros [H0 H1]. unfold getADSAttenuation, lerp.
  rewrite (clamp_above (t / attackTime curve))
    by (try lra; apply div_ge_1; lra).
  rewrite clamp_inside by (split; [apply div_nonneg | apply div_le_1]; lra).
  ring.
Qed.

Lemma ads_sustain (t : R) :
  attackTime curve + decayTime curve <= t ->
  getADSAttenuation curve t = sustainAmount curve.
Proof using attack_pos decay_pos.
  intros H. unfold getADSAttenuation, lerp.
  rewrite (clamp_above (t / attackTime curve))
    by (try lra; apply div_ge_1; lra).
  rewrite clamp_above by (try lra; apply div_ge_1; lra).
  ring.
Qed.

End Envelope.

(** C9 (as amended).  For every ADSR curve with positive attack time, decay
    time and sustain level, and sustain level at most 1, the ADS attenuation
    is non-decreasing on [0, attackTime], non-increasing on
    (attackTime, attackTime + decayTime], equal to the sustain level at
    attackTime + decayTime, and equal to it at every later time. *)
Theorem ads_attenuation_shape (curve : ADSRCurve) :
  0 < attackTime curve -> 0 < decayTime curve ->
  0 < sustainAmount curve -> sustainAmount curve <= 1 ->
  (forall t1 t2, 0 <= t1 -> t1 <= t2 -> t2 <= attackTime curve ->
     getADSAttenuation curve t1 <= getADSAttenuation curve t2) /\
  (forall t1 t2, attackTime curve < t1 -> t1 <= t2 ->
     t2 <= attackTime curve + decayTime curve ->
     getADSAttenuation curve t2 <= getADSAttenuation curve t1) /\
  getADSAttenuation curve (attackTime curve + decayTime curve)
    = sustainAmount curve /\
  (forall t, attackTime curve + decayTime curve <= t ->
     getADSAttenuation curve t = sustainAmount curve).
Proof.
  intros HA HD HS HS1. repeat split.
  - intros t1 t2 H0 H12 H2.
    rewrite !ads_attack by lra. apply div_le_mono; lra.
  - intros t1 t2 H0 H12 H2.
    rewrite !ads_decay by lra.
    assert (Hm : (t1 - attackTime curve) / decayTime curve
                 <= (t2 - attackTime curve) / decayTime curve)
      by (apply div_le_mono; lra).
    nra.
  - apply ads_sustain; lra.
  - intros t Ht. apply ads_sustain; lra.
Qed.

(** The default curve of the program meets the conditions. *)
Lemma ads_attenuation_shape_default :
  (forall t1 t2, 0 <= t1 -> t1 <= t2 -> t2 <= attackTime defaultCurve ->
     getADSAttenuation defaultCurve t1 <= getADSAttenuation defaultCurve t2) /\
  (forall t1 t2, attackTime defaultCurve < t1 -> t1 <= t2 ->
     t2 <= attackTime defaultCurve + decayTime defaultCurve ->
     getADSAttenuation defaultCurve t2 <= getADSAttenuation defaultCurve t1) /\
  getADSAttenuation defaultCurve (attackTime defaultCurve + decayTime defaultCurve)
    = sustainAmount defaultCurve /\
  (forall t, attackTime defaultCurve + decayTime defaultCurve <= t ->
     getADSAttenuation defaultCurve t = sustainAmount defaultCurve).
Proof.
  apply (ads_attenuation_shape defaultCurve); simpl; lra.
Defined.

(** With a sustain level above 1 the decay segment rises: the curve
    (attack 1, decay 1, sustain 2) gives 1.5 at time 1.5 and 2 at time 2. *)
Lemma ads_decay_rises_above_unit_sustain :
  ~ (forall curve : ADSRCurve,
       0 < attackTime curve -> 0 < decayTime curve ->
       0 < sustainAmount curve -> 0 < curveReleaseTime curve ->
       forall t1 t2, attackTime curve < t1 -> t1 <= t2 ->
         t2 <= attackTime curve + decayTime curve ->
         getADSAttenuation curve t2 <= getADSAttenuation curve t1).
Proof.
  intros H.
  pose (c := {| attackTime := 1; curveReleaseTime := 1;
                sustainAmount := 2; decayTime := 1 |}).
  specialize (H c ltac:(simpl; lra) ltac:(simpl; lra) ltac:(simpl; lra)
                ltac:(simpl; lra) 1.5 2
                ltac:(simpl; lra) ltac:(lra) ltac:(simpl; lra)).
  rewrite !(ads_decay c) in H by (simpl; lra).
  simpl in H. lra.
Qed.

(** ** Waveform generators *)

Lemma fmod_unit_nonneg (x : R) : 0 <= x -> 0 <= fmod x 1 < 1.
Proof.
  intros Hx. unfold fmod.
  replace (x / 1) with x by field.
  pose proof (truncate_nonneg_frac x Hx). lra.
Qed.

Lemma sine_bounded (t f : R) : Rabs (sine t f) <= 1.
Proof.
  unfold sine. apply Rabs_le. destruct (SIN_bound (t * PI * f * 2)). lra.
Qed.

Lemma square_unit (t f : R) : square t f = 1 \/ square t f = -1.
Proof. unfold square. destruct (Rgt_dec (sine t f) 0); [left | right]; reflexivity. Qed.

Lemma square_bounded (t f : R) : Rabs (square t f) <= 1.
Proof.
  apply Rabs_le. destruct (square_unit t f) as [-> | ->]; lra.
Qed.

Lemma saw_range (t f : R) : 0 <= t * f -> -1 <= saw t f < 1.
Proof.
  intros H. unfold saw. pose proof (fmod_unit_nonneg _ H). lra.
Qed.

Lemma triangle_range (t f : R) : 0 <= t * f -> -1 <= triangle t f <= 1.
Proof.
  intros H. unfold triangle, abs.
  pose proof (saw_range t f H) as [Hlo Hhi].
  assert (Ha : Rabs (saw t f) <= 1) by (apply Rabs_le; lra).
  pose proof (Rabs_pos (saw t f)). lra.
Qed.

(** C4 (as amended).  Sine and square are bounded by 1 in magnitude for all
    inputs; sawtooth and triangle are bounded by 1 in magnitude whenever the
    phase [t * f] is not negative. *)
Theorem waveform_bounded (w : Waveform) (t f : R) :
  w = W_Sine \/ w = W_Square \/ 0 <= t * f ->
  Rabs (waveFuncs w t f) <= 1.
Proof.
  intros H. destruct w; simpl.
  - apply sine_bounded.
  - destruct H as [H | [H | H]]; try discriminate.
    apply Rabs_le. pose proof (saw_range t f H). lra.
  - apply square_bounded.
  - destruct H as [H | [H | H]]; try discriminate.
    apply Rabs_le. apply triangle_range. exact H.
Qed.

Lemma waveform_bounded_saw_example : Rabs (waveFuncs W_Saw 1 440) <= 1.
Proof.
  apply (waveform_bounded W_Saw 1 440). right; right. lra.
Defined.

(** A negative phase: [fmod] keeps the sign of its first argument, so the
    sawtooth at [t = -1/2], [f = 1] is [-2] and the triangle is [3]. *)
Lemma saw_negative_phase : saw (-0.5) 1 = -2.
Proof.
  unfold saw, fmod.
  rewrite truncate_small by lra. lra.
Qed.

Lemma triangle_negative_phase : triangle (-0.5) 1 = 3.
Proof.
  unfold triangle, abs. rewrite saw_negative_phase.
  rewrite Rabs_left by lra. lra.
Qed.

Lemma waveform_unbounded_negative_phase :
  ~ (forall (w : Waveform) (t f : R), Rabs (waveFuncs w t f) <= 1).
Proof.
  intros H. specialize (H W_Saw (-0.5) 1). simpl in H.
  rewrite saw_negative_phase in H.
  rewrite Rabs_left in H by lra. lra.
Qed.

(** ** Bit-crush *)

Lemma powf_pos (x y : R) : 0 < powf x y.
Proof. unfold powf, Rpower. apply exp_pos. Qed.

Lemma powf_2_1 : powf 2 1 = 2.
Proof. unfold powf. apply Rpower_1. lra. Qed.

Lemma roundToInt_nonneg (x : R) : 0 <= x -> roundToInt x = Int_part (x + 0.5).
Proof.
  intros Hx. unfold roundToInt, truncate.
  destruct (Rlt_dec x 0); [lra|].
  destruct (Rle_dec 0 (x + 0.5)); [reflexivity | lra].
Qed.

Lemma roundToInt_exact (n : Z) : (0 <= n)%Z -> roundToInt (IZR n) = n.
Proof.
  intros Hn. rewrite roundToInt_nonneg by (apply IZR_le; exact Hn).
  symmetry. apply Int_part_spec. lra.
Qed.


(** C2 (the code at the failing inputs).  The lowest sample [-1] is sent to
    [0] at every depth, so at depth 16 the result is at distance 1 from the
    input; at depth 1 the samples [-1], [0] and [1] are sent to the three
    values [0], [1/2] and [1]. *)
Theorem bitcrush_offset_and_levels :
  bitcrush (-1) 16 = 0 /\
  Rabs (bitcrush (-1) 16 - (-1)) = 1 /\
  bitcrush (-1) 1 = 0 /\ bitcrush 0 1 = 0.5 /\ bitcrush 1 1 = 1.
Proof.
  assert (Hlow : forall bits, bitcrush (-1) bits = 0).
  { intros bits. unfold bitcrush.
    replace ((-1 + 1) * 0.5 * powf 2 bits) with (IZR 0) by ring.
    rewrite roundToInt_exact by lia. unfold Rdiv. ring. }
  repeat split.
  - apply Hlow.
  - rewrite Hlow. replace (0 - -1) with 1 by ring. apply Rabs_R1.
  - apply Hlow.
  - unfold bitcrush. rewrite powf_2_1.
    replace ((0 + 1) * 0.5 * 2) with (IZR 1) by lra.
    rewrite roundToInt_exact by lia. lra.
  - unfold bitcrush. rewrite powf_2_1.
    replace ((1 + 1) * 0.5 * 2) with (IZR 2) by lra.
    rewrite roundToInt_exact by lia. lra.
Qed.

(** ** Compressor *)

Lemma compressor_eq (accum val magic : R) :
  compressor accum val magic =
  ((1 - Rabs (val - magic * (val - accum))) * (val - magic * (val - accum)),
   accum).
Proof. reflexivity. Qed.

Lemma getVoiceSample_accumulators (s : Settings) (st : Synth) (i : nat) (t : R) :
  lLpAccum (snd (getVoiceSample s st i t)) = lLpAccum st /\
  rLpAccum (snd (getVoiceSample s st i t)) = rLpAccum st.
Proof.
  unfold getVoiceSample.
  destruct (voices st !! i) as [v|]; [|split; reflexivity].
  destruct (finishedPlaying v); [split; reflexivity|].
  destruct (rawSample s v t) as [l r].
  destruct (voiceAttenuation v t) as [a v'].
  destruct (enableBitcrush s), (enableCompressor s); simpl; split; reflexivity.
Qed.

Lemma mixVoices_accumulators (s : Settings) (t : R) (n : nat) :
  forall (j : nat) (frame : R * R) (st : Synth),
    lLpAccum (snd (mixVoices s t n j frame st)) = lLpAccum st /\
    rLpAccum (snd (mixVoices s t n j frame st)) = rLpAccum st.
Proof.
  induction n as [|n IH]; intros j frame st; simpl.
  - split; reflexivity.
  - pose proof (getVoiceSample_accumulators s st j t) as [Hl Hr].
    destruct (getVoiceSample s st j t) as [[l r] st']. simpl in Hl, Hr.
    destruct (IH (S j) (fst frame + l * 0.25, snd frame + r * 0.25) st')
      as [Hl' Hr'].
    split; congruence.
Qed.

Lemma unisonVoiceSample_setCompressor (b : bool) (s : Settings) (t f : R)
    (wf : WaveFunc) (i : Z) :
  unisonVoiceSample (setCompressor b s) t f wf i = unisonVoiceSample s t f wf i.
Proof.
  unfold unisonVoiceSample, getDetune.
  cbn [setCompressor goofyUnison unisonOrder unisonDetuneAmount]. reflexivity.
Qed.

Lemma getUnisonVoicePan_setCompressor (b : bool) (s : Settings) (x : R) :
  getUnisonVoicePan (setCompressor b s) x = getUnisonVoicePan s x.
Proof. unfold getUnisonVoicePan. cbn [setCompressor unisonOrder]. reflexivity. Qed.

Lemma unisonLoop_setCompressor (b : bool) (s : Settings) (t f : R)
    (wf : WaveFunc) (n : nat) :
  forall (i : Z) (out : R * R),
    unisonLoop (setCompressor b s) t f wf n i out = unisonLoop s t f wf n i out.
Proof.
  induction n as [|n IH]; intros i out; [reflexivity|].
  cbn [unisonLoop].
  rewrite IH, unisonVoiceSample_setCompressor, getUnisonVoicePan_setCompressor.
  reflexivity.
Qed.

Lemma rawSample_setCompressor (b : bool) (s : Settings) (v : PolyphonicVoice)
    (t : R) :
  rawSample (setCompressor b s) v t = rawSample s v t.
Proof.
  unfold rawSample, doUnisonDetune. cbn [setCompressor unisonDetune unisonOrder currWaveFunc].
  rewrite unisonLoop_setCompressor. reflexivity.
Qed.

(** The sample stage with the compressor on is the stage with the compressor
    off followed by [compressor] on each channel, fed with the accumulators
    of the state on entry; the state after the call is the same in both. *)
Lemma getVoiceSample_compressor_stage (s : Settings) (st : Synth) (i : nat)
    (t : R) (v : PolyphonicVoice) :
  voices st !! i = Some v -> finishedPlaying v = false ->
  getVoiceSample (setCompressor true s) st i t =
  (let '((l, r), st') := getVoiceSample (setCompressor false s) st i t in
   ((fst (compressor (lLpAccum st) l 0.05),
     fst (compressor (rLpAccum st) r 0.05)), st')).
Proof.
  intros Hv Hf. unfold getVoiceSample. rewrite Hv, Hf.
  rewrite !rawSample_setCompressor.
  destruct (rawSample s v t) as [l r].
  destruct (voiceAttenuation v t) as [a v'].
  cbn [setCompressor enableCompressor enableBitcrush masterVolume crushBits].
  destruct (enableBitcrush s); reflexivity.
Qed.

(** C1 (the code at the failing input).  [compressor] returns
    [(1 - |v'|) * v'] for [v' = val - magic * (val - accum)] and leaves the
    accumulator as it was; with the accumulator at 0 and the sample at 1 the
    result is 0.0475 and the accumulator is still 0, and a whole frame
    rendered with the compressor enabled leaves both accumulators unchanged. *)
Theorem compressor_never_updates_accumulator :
  (forall accum val magic,
     compressor accum val magic =
     ((1 - Rabs (val - magic * (val - accum))) * (val - magic * (val - accum)),
      accum)) /\
  compressor 0 1 0.05 = (0.0475, 0) /\
  (forall s st t,
     lLpAccum (snd (renderFrame s t st)) = lLpAccum st /\
     rLpAccum (snd (renderFrame s t st)) = rLpAccum st).
Proof.
  split; [|split].
  - intros. apply compressor_eq.
  - rewrite compressor_eq. f_equal.
    replace (1 - 0.05 * (1 - 0)) with 0.95 by lra.
    rewrite Rabs_pos_eq by lra. lra.
  - intros s st t. apply mixVoices_accumulators.
Qed.

(** ** Unison / detune engine *)

Lemma unisonVoiceSample_tapDetune (s : Settings) (t f : R) (wf : WaveFunc) (i : Z) :
  unisonVoiceSample s t f wf i = wf t (f + f * tapDetune s i).
Proof.
  unfold unisonVoiceSample, tapDetune. destruct (goofyUnison s); reflexivity.
Qed.

(** C3 (as amended).  [getDetune] applied to index [x] and amount [d] is
    [x * sin (x / order) * d] in normal mode and
    [(x - order div 2) * (d / order)] in goofy mode, with [order div 2] the
    integer quotient.  The engine passes [detuneAmount] in normal mode and
    [detuneAmount / order] in goofy mode, so the offset of tap [i] is
    [i * sin (i / order) * detuneAmount] in normal mode and
    [(i - order div 2) * (detuneAmount / order / order)] in goofy mode; the
    tap is the generator evaluated at frequency
    [baseFrequency * (1 + offset i)]. *)
Theorem unison_tap_detune (s : Settings) (t f x d : R) (wf : WaveFunc) (i : Z) :
  getDetune s x d =
    (if goofyUnison s
     then (x - IZR (Z.quot (unisonOrder s) 2)) * (d / IZR (unisonOrder s))
     else x * sin (x / IZR (unisonOrder s)) * d) /\
  tapDetune s i =
    (if goofyUnison s
     then (IZR i - IZR (Z.quot (unisonOrder s) 2))
          * (unisonDetuneAmount s / IZR (unisonOrder s) / IZR (unisonOrder s))
     else IZR i * sin (IZR i / IZR (unisonOrder s)) * unisonDetuneAmount s) /\
  unisonVoiceSample s t f wf i = wf t (f * (1 + tapDetune s i)).
Proof.
  split; [|split].
  - unfold getDetune. destruct (goofyUnison s); [reflexivity | ring].
  - unfold tapDetune, getDetune. destruct (goofyUnison s); simpl.
    + reflexivity.
    + ring.
  - rewrite unisonVoiceSample_tapDetune. f_equal. ring.
Qed.

(** The settings at program start, switched to goofy mode. *)
Lemma goofy_tap_detune_default :
  let s := {| unisonDetune := true; unisonOrder := 16;
              unisonDetuneAmount := 0.0025; crushBits := 16;
              enableBitcrush := false; goofyUnison := true;
              enableCompressor := false; masterVolume := 1;
              currWaveFunc := W_Sine |} in
  tapDetune s 0 = -0.000078125 /\
  tapDetune s 0 <>
    (IZR 0 - IZR (unisonOrder s) / 2) * (unisonDetuneAmount s / IZR (unisonOrder s)).
Proof.
  intros s.
  assert (E : tapDetune s 0 = -0.000078125).
  { unfold tapDetune, getDetune, s. simpl.
    change (Z.quot 16 2) with 8%Z. lra. }
  split; [exact E|]. rewrite E. unfold s. simpl. lra.
Qed.

Lemma tapDetune_order_one (s : Settings) :
  unisonOrder s = 1%Z -> tapDetune s 0 = 0.
Proof.
  intros E. unfold tapDetune, getDetune. rewrite E.
  change (Z.quot 1 2) with 0%Z.
  destruct (goofyUnison s); simpl; ring.
Qed.

Lemma pan_order_one (s : Settings) :
  unisonOrder s = 1%Z -> getUnisonVoicePan s 0 = -1.
Proof. intros E. unfold getUnisonVoicePan. rewrite E. lra. Qed.

Lemma panToLVol_left : panToLVol (-1) = 1.
Proof. unfold panToLVol. destruct (Rlt_dec (-1) 0); lra. Qed.

Lemma panToRVol_left : panToRVol (-1) = 0.
Proof. unfold panToRVol. destruct (Rgt_dec (-1) 0); lra. Qed.

Lemma doUnisonDetune_order_one (s : Settings) (t f : R) (wf : WaveFunc) :
  unisonOrder s = 1%Z -> doUnisonDetune s (0, 0) t f wf = (wf t f, 0).
Proof.
  intros E. unfold doUnisonDetune. rewrite E.
  change (Z.to_nat 1) with 1%nat. cbn [unisonLoop fst snd].
  rewrite unisonVoiceSample_tapDetune, (tapDetune_order_one s E),
    (pan_order_one s E), panToLVol_left, panToRVol_left.
  replace (f + f * 0) with f by ring.
  f_equal; field.
Qed.

(** C5 (as amended).  With unison order 1 the single tap has zero detune
    offset in both modes and pan -1 (left gain 1, right gain 0): the engine
    returns the plain generator sample on the left channel and 0 on the
    right channel. *)
Theorem unison_order_one (s : Settings) (v : PolyphonicVoice) (t f : R)
    (wf : WaveFunc) :
  unisonOrder s = 1%Z ->
  tapDetune s 0 = 0 /\
  getUnisonVoicePan s 0 = -1 /\
  panToLVol (getUnisonVoicePan s 0) = 1 /\
  panToRVol (getUnisonVoicePan s 0) = 0 /\
  doUnisonDetune s (0, 0) t f wf = (wf t f, 0) /\
  (unisonDetune s = true ->
   rawSample s v t = (waveFuncs (currWaveFunc s) t (freq v), 0)).
Proof.
  intros E.
  pose proof (pan_order_one s E) as Hp.
  repeat split.
  - apply tapDetune_order_one; exact E.
  - exact Hp.
  - rewrite Hp. apply panToLVol_left.
  - rewrite Hp. apply panToRVol_left.
  - apply doUnisonDetune_order_one; exact E.
  - intros Hon. unfold rawSample. rewrite Hon.
    apply doUnisonDetune_order_one; exact E.
Qed.

Lemma unison_order_one_example :
  tapDetune (orderOneSettings true) 0 = 0 /\
  getUnisonVoicePan (orderOneSettings true) 0 = -1 /\
  panToLVol (getUnisonVoicePan (orderOneSettings true) 0) = 1 /\
  panToRVol (getUnisonVoicePan (orderOneSettings true) 0) = 0 /\
  doUnisonDetune (orderOneSettings true) (0, 0) 0 440 square
    = (square 0 440, 0) /\
  (unisonDetune (orderOneSettings true) = true ->
   rawSample (orderOneSettings true) zeroVoice 0
   = (waveFuncs (currWaveFunc (orderOneSettings true)) 0 (freq zeroVoice), 0)).
Proof.
  apply (unison_order_one (orderOneSettings true) zeroVoice 0 440 square).
  reflexivity.
Defined.

Lemma square_at_zero (f : R) : square 0 f = -1.
Proof.
  unfold square, sine. replace (0 * PI * f * 2) with 0 by ring.
  rewrite sin_0. destruct (Rgt_dec 0 0); lra.
Qed.

(** Square wave at time 0 on a voice at 440 Hz: the plain path gives
    [(-1, -1)], the unison path with order 1 gives [(-1, 0)]. *)
Lemma unison_order_one_differs_from_plain :
  let v := {| note := 69; finishedPlaying := false; freq := 440;
              volume := 1; pressTime := 0; releaseTime := 0 |} in
  rawSample (orderOneSettings false) v 0 = (-1, -1) /\
  rawSample (orderOneSettings true) v 0 = (-1, 0) /\
  rawSample (orderOneSettings true) v 0 <> rawSample (orderOneSettings false) v 0.
Proof.
  intros v.
  assert (Hp : rawSample (orderOneSettings false) v 0 = (-1, -1)).
  { unfold rawSample. simpl. rewrite square_at_zero. reflexivity. }
  assert (Hu : rawSample (orderOneSettings true) v 0 = (-1, 0)).
  { unfold rawSample. simpl.
    change (doUnisonDetune (orderOneSettings true) (0, 0) 0 440 square = (-1, 0)).
    rewrite doUnisonDetune_order_one by reflexivity.
    rewrite square_at_zero. reflexivity. }
  split; [exact Hp | split; [exact Hu|]].
  rewrite Hp, Hu. intros H. injection H as H. lra.
Qed.

(** ** The search loop *)

Section FirstVoice.

Variable p : PolyphonicVoice -> bool.
Variable vs : list PolyphonicVoice.

Lemma firstVoice_Some (n : nat) :
  forall i k, firstVoice p vs i n = Some k ->
    (i <= k < i + n)%nat /\
    (exists v, vs !! k = Some v /\ p v = true) /\
    (forall j w, (i <= j < k)%nat -> vs !! j = Some w -> p w = false).
Proof using Type.
  induction n as [|n IH]; intros i k H; simpl in H; [discriminate|].
  destruct (vs !! i) as [v|] eqn:Hi; [|discriminate].
  destruct (p v) eqn:Hp.
  - injection H as <-. split; [lia|]. split; [exists v; auto|].
    intros j w Hj. lia.
  - destruct (IH (S i) k H) as (Hk & Hv & Hbefore).
    split; [lia|]. split; [exact Hv|].
    intros j w Hj Hw. destruct (Nat.eq_dec j i) as [-> | Hne].
    + rewrite Hi in Hw. injection Hw as <-. exact Hp.
    + apply (Hbefore j w); [lia | exact Hw].
Qed.

Lemma firstVoice_None (n : nat) :
  forall i, firstVoice p vs i n = None ->
    forall j w, (i <= j < i + n)%nat -> vs !! j = Some w -> p w = false.
Proof using Type.
  induction n as [|n IH]; intros i H j w Hj Hw; [lia|].
  simpl in H. destruct (vs !! i) as [v|] eqn:Hi.
  - destruct (p v) eqn:Hp; [discriminate|].
    destruct (Nat.eq_dec j i) as [-> | Hne].
    + rewrite Hi in Hw. injection Hw as <-. exact Hp.
    + apply (IH (S i) H j w); [lia | exact Hw].
  - apply lookup_ge_None_1 in Hi.
    rewrite lookup_ge_None_2 in Hw by lia. discriminate.
Qed.

Lemma firstVoice_found (n k : nat) (v : PolyphonicVoice) :
  (k < n)%nat -> vs !! k = Some v -> p v = true ->
  exists k', firstVoice p vs 0 n = Some k'.
Proof using Type.
  intros Hk Hv Hp. destruct (firstVoice p vs 0 n) as [k'|] eqn:E.
  - exists k'. reflexivity.
  - rewrite (firstVoice_None n 0 E k v) in Hp by (lia || assumption).
    discriminate.
Qed.

End FirstVoice.

(** ** Counting the voices that hold a note *)

Lemma Rgtb_true (x y : R) : x > y -> Rgtb x y = true.
Proof. intros H. unfold Rgtb. destruct (Rgt_dec x y); [reflexivity | lra]. Qed.

Lemma Rgtb_false (x y : R) : x <= y -> Rgtb x y = false.
Proof. intros H. unfold Rgtb. destruct (Rgt_dec x y); [lra | reflexivity]. Qed.

Lemma holds_pressVoice (n : Z) (t : R) (v : PolyphonicVoice) :
  holds n (pressVoice n t v) = true.
Proof.
  unfold holds, pressVoice; simpl.
  rewrite Z.eqb_refl, Rgtb_true by lra. reflexivity.
Qed.

Lemma holds_releaseVoice (n : Z) (t : R) (v : PolyphonicVoice) :
  holds n (releaseVoice t v) = false.
Proof.
  unfold holds, releaseVoice; simpl.
  rewrite Rgtb_false by lra. apply andb_false_r.
Qed.

Lemma heldCount_cons (n : Z) (v : PolyphonicVoice) (vs : list PolyphonicVoice) :
  heldCount n (v :: vs) = (b2n (holds n v) + heldCount n vs)%nat.
Proof. unfold heldCount; simpl. destruct (holds n v); reflexivity. Qed.

Lemma heldCount_alter (n : Z) (f : PolyphonicVoice -> PolyphonicVoice) :
  forall (vs : list PolyphonicVoice) (k : nat) (v : PolyphonicVoice),
    vs !! k = Some v ->
    (heldCount n (alter f k vs) + b2n (holds n v)
     = heldCount n vs + b2n (holds n (f v)))%nat.
Proof.
  induction vs as [|x vs IH]; intros k v Hk; [discriminate|].
  destruct k as [|k]; simpl in Hk.
  - injection Hk as ->. cbn [alter list_alter]. rewrite !heldCount_cons. lia.
  - cbn [alter list_alter]. rewrite !heldCount_cons. specialize (IH k v Hk). lia.
Qed.

Lemma heldCount_zero (n : Z) (vs : list PolyphonicVoice) :
  heldCount n vs = 0%nat <-> Forall (fun v => holds n v = false) vs.
Proof.
  induction vs as [|x vs IH].
  - split; [constructor | reflexivity].
  - rewrite heldCount_cons. split.
    + intros H. destruct (holds n x) eqn:Hx; simpl in H; [lia|].
      constructor; [exact Hx | apply IH; lia].
    + intros H. inversion H as [|? ? Hx Hvs]; subst.
      rewrite Hx. simpl. apply IH. exact Hvs.
Qed.

Lemma activeCount_le_heldCount (n : Z) (vs : list PolyphonicVoice) :
  (activeCount n vs <= heldCount n vs)%nat.
Proof.
  unfold activeCount, heldCount. induction vs as [|x vs IH]; simpl; [lia|].
  destruct (holds n x), (finishedPlaying x); simpl; lia.
Qed.

(** In a pool of at most [NUM_VOICES] slots a failed search means that no
    voice satisfies the predicate. *)
Lemma firstVoice_None_Forall (p : PolyphonicVoice -> bool)
    (vs : list PolyphonicVoice) :
  (length vs <= NUM_VOICES)%nat ->
  firstVoice p vs 0 NUM_VOICES = None ->
  Forall (fun v => p v = false) vs.
Proof.
  intros Hlen H. apply Forall_lookup_2. intros j w Hw.
  apply (firstVoice_None p vs NUM_VOICES 0 H j w); [|exact Hw].
  apply lookup_lt_Some in Hw. lia.
Qed.

(** ** Note-on *)

Lemma noteAlreadyDown_false (vs : list PolyphonicVoice) (n : Z) :
  (length vs <= NUM_VOICES)%nat ->
  noteAlreadyDown vs n = false ->
  Forall (fun v => holds n v = false) vs.
Proof.
  intros Hlen H. unfold noteAlreadyDown in H.
  destruct (firstVoice _ vs 0 NUM_VOICES) eqn:E; [discriminate|].
  apply firstVoice_None_Forall in E; [|exact Hlen].
  eapply Forall_impl; [exact E|]. intros v Hv. simpl in Hv.
  unfold holds. rewrite andb_comm. exact Hv.
Qed.

Lemma noteAlreadyDown_true (vs : list PolyphonicVoice) (n : Z) (k : nat)
    (v : PolyphonicVoice) :
  (k < NUM_VOICES)%nat -> vs !! k = Some v -> holds n v = true ->
  noteAlreadyDown vs n = true.
Proof.
  intros Hk Hv Hh. unfold noteAlreadyDown.
  destruct (firstVoice_found
              (fun v => Rgtb (volume v) 0 && Z.eqb (note v) n) vs
              NUM_VOICES k v Hk Hv) as [k' ->]; [|reflexivity].
  unfold holds in Hh. rewrite andb_comm. exact Hh.
Qed.

Lemma noteAlreadyDown_Forall (vs : list PolyphonicVoice) (n : Z) :
  Forall (fun v => holds n v = false) vs -> noteAlreadyDown vs n = false.
Proof.
  intros H. unfold noteAlreadyDown.
  destruct (firstVoice _ vs 0 NUM_VOICES) as [k|] eqn:E; [|reflexivity].
  apply firstVoice_Some in E. destruct E as (_ & (v & Hv & Hp) & _).
  rewrite Forall_lookup in H. specialize (H k v Hv).
  unfold holds in H. rewrite andb_comm in H. simpl in Hp. congruence.
Qed.

(** The slot chosen by the allocator lies inside the pool. *)
Lemma getFreeVoiceIdx_slot (vs : list PolyphonicVoice) :
  (0 < length vs)%nat ->
  exists k, getFreeVoiceIdx vs = Z.of_nat k /\ (k < NUM_VOICES)%nat /\
            (k < length vs)%nat.
Proof.
  intros Hlen. unfold getFreeVoiceIdx.
  destruct (firstVoice finishedPlaying vs 0 NUM_VOICES) as [k|] eqn:E.
  - exists k. apply firstVoice_Some in E. destruct E as (Hk & (v & Hv & _) & _).
    apply lookup_lt_Some in Hv. repeat split; [lia | exact Hv].
  - exists 0%nat. unfold NUM_VOICES. repeat split; [lia | exact Hlen].
Qed.

(** A note-on for a note that is not held presses exactly one slot. *)
Lemma setNoteOn_fresh (n : Z) (t : R) (vs : list PolyphonicVoice) :
  (0 < length vs)%nat ->
  noteAlreadyDown vs n = false ->
  exists k v, (k < NUM_VOICES)%nat /\ vs !! k = Some v /\
              getFreeVoiceIdx vs = Z.of_nat k /\
              setNoteOn n t vs = alter (pressVoice n t) k vs.
Proof.
  intros Hlen Hdown.
  destruct (getFreeVoiceIdx_slot vs Hlen) as (k & Hk & Hk16 & Hklen).
  destruct (lookup_lt_is_Some_2 vs k Hklen) as [v Hv].
  exists k, v. repeat split; try assumption.
  unfold setNoteOn. rewrite Hdown, Hk, Nat2Z.id. reflexivity.
Qed.

(** C6.  In a pool where note [n] is not held, [noteOn (n, t)] followed by a
    second [noteOn (n, t')] leaves exactly one voice holding [n], every voice
    holding [n] has press time [t], the second call changes nothing, and at
    most one unfinished voice holds [n]. *)
Theorem noteOn_twice_no_retrigger (n : Z) (t t' : R)
    (vs : list PolyphonicVoice) :
  length vs = NUM_VOICES ->
  noteAlreadyDown vs n = false ->
  let vs1 := setNoteOn n t vs in
  let vs2 := setNoteOn n t' vs1 in
  vs2 = vs1 /\
  heldCount n vs2 = 1%nat /\
  (forall i v, vs2 !! i = Some v -> holds n v = true -> pressTime v = t) /\
  (activeCount n vs2 <= 1)%nat.
Proof.
  intros Hlen Hdown vs1 vs2.
  assert (Hpos : (0 < length vs)%nat) by (rewrite Hlen; unfold NUM_VOICES; lia).
  destruct (setNoteOn_fresh n t vs Hpos Hdown) as (k & v & Hk & Hv & _ & Hon).
  assert (Hnone : Forall (fun v => holds n v = false) vs)
    by (apply noteAlreadyDown_false; [lia | exact Hdown]).
  assert (Hk1 : vs1 !! k = Some (pressVoice n t v)).
  { unfold vs1. rewrite Hon, list_lookup_alter_eq, Hv. reflexivity. }
  assert (H21 : vs2 = vs1).
  { unfold vs2, setNoteOn.
    rewrite (noteAlreadyDown_true vs1 n k _ Hk Hk1 (holds_pressVoice n t v)).
    reflexivity. }
  assert (Hcount : heldCount n vs1 = 1%nat).
  { pose proof (heldCount_alter n (pressVoice n t) vs k v Hv) as Hc.
    rewrite holds_pressVoice in Hc.
    pose proof (proj2 (heldCount_zero n vs) Hnone) as Hz.
    rewrite Forall_lookup in Hnone. rewrite (Hnone k v Hv) in Hc.
    unfold vs1. rewrite Hon. simpl in Hc. lia. }
  rewrite H21. repeat split.
  - exact Hcount.
  - intros i w Hw Hh. destruct (Nat.eq_dec i k) as [-> | Hne].
    + rewrite Hk1 in Hw. injection Hw as <-. reflexivity.
    + unfold vs1 in Hw. rewrite Hon, list_lookup_alter_ne in Hw by congruence.
      rewrite Forall_lookup in Hnone. rewrite (Hnone i w Hw) in Hh.
      discriminate.
  - rewrite <- Hcount. apply activeCount_le_heldCount.
Qed.

Lemma noteOn_twice_initial_pool :
  let vs1 := setNoteOn 60 0 initialVoices in
  let vs2 := setNoteOn 60 1 vs1 in
  vs2 = vs1 /\
  heldCount 60 vs2 = 1%nat /\
  (forall i v, vs2 !! i = Some v -> holds 60 v = true -> pressTime v = 0) /\
  (activeCount 60 vs2 <= 1)%nat.
Proof.
  apply (noteOn_twice_no_retrigger 60 0 1 initialVoices).
  - reflexivity.
  - apply noteAlreadyDown_Forall. repeat constructor.
Defined.

(** ** Voice exhaustion *)

Lemma getFreeVoiceIdx_exhausted (vs : list PolyphonicVoice) :
  Forall (fun v => finishedPlaying v = false) vs ->
  getFreeVoiceIdx vs = 0%Z.
Proof.
  intros Hall. unfold getFreeVoiceIdx.
  destruct (firstVoice finishedPlaying vs 0 NUM_VOICES) as [k|] eqn:E;
    [|reflexivity].
  apply firstVoice_Some in E. destruct E as (_ & (v & Hv & Hfin) & _).
  rewrite Forall_lookup in Hall. rewrite (Hall k v Hv) in Hfin. discriminate.
Qed.

(** C7.  When no voice of the 16-slot pool is finished, the allocator returns
    index 0, and a note-on of a note that is not held overwrites slot 0 with
    the new note and leaves the other slots as they were; the call returns
    the new pool like any other. *)
Theorem noteOn_exhausted_reuses_slot_zero (n : Z) (t : R)
    (vs : list PolyphonicVoice) :
  length vs = NUM_VOICES ->
  Forall (fun v => finishedPlaying v = false) vs ->
  noteAlreadyDown vs n = false ->
  getFreeVoiceIdx vs = 0%Z /\
  exists v0 rest,
    vs = v0 :: rest /\
    setNoteOn n t vs = pressVoice n t v0 :: rest /\
    note (pressVoice n t v0) = n /\
    pressTime (pressVoice n t v0) = t /\
    finishedPlaying (pressVoice n t v0) = false.
Proof.
  intros Hlen Hall Hdown.
  pose proof (getFreeVoiceIdx_exhausted vs Hall) as Hfree.
  split; [exact Hfree|].
  destruct vs as [|v0 rest]; [discriminate|].
  exists v0, rest. repeat split.
  unfold setNoteOn. rewrite Hdown, Hfree. reflexivity.
Qed.

(** A note-on of a note that is not held, in a pool whose first finished
    slot is [k], presses slot [k]. *)
Lemma setNoteOn_alloc (n : Z) (t : R) (vs : list PolyphonicVoice) (k : nat) :
  Forall (fun v => holds n v = false) vs ->
  firstVoice finishedPlaying vs 0 NUM_VOICES = Some k ->
  setNoteOn n t vs = alter (pressVoice n t) k vs.
Proof.
  intros Hnone Hk. unfold setNoteOn, getFreeVoiceIdx.
  rewrite (noteAlreadyDown_Forall vs n Hnone), Hk, Nat2Z.id. reflexivity.
Qed.

Lemma pressAll_cons (n : Z) (ns : list Z) (vs : list PolyphonicVoice) :
  pressAll (n :: ns) vs = pressAll ns (setNoteOn n 0 vs).
Proof. reflexivity. Qed.

Lemma pressAll_app (ns ms : list Z) (vs : list PolyphonicVoice) :
  pressAll (ns ++ ms) vs = pressAll ms (pressAll ns vs).
Proof. unfold pressAll. apply fold_left_app. Qed.

(** One event of [pressAll]: the slot is found by running the search. *)
Ltac press_next :=
  rewrite pressAll_cons;
  match goal with
  | |- context [setNoteOn ?n ?t ?vs] =>
      let r := eval lazy in (firstVoice finishedPlaying vs 0 NUM_VOICES) in
      lazymatch r with
      | Some ?k =>
          rewrite (setNoteOn_alloc n t vs k)
            by (first [ repeat constructor | reflexivity ]);
          cbn [alter list_alter replicate NUM_VOICES]
      end
  end.

(** Sixteen note-ons on the idle pool claim the slots 0 .. 15 in order. *)
Lemma pressAll_fills_pool : pressAll sixteenNotes idlePool = fullPool.
Proof.
  unfold sixteenNotes, idlePool.
  do 16 press_next. reflexivity.
Qed.

(** The seventeenth note-on lands in slot 0: note 60 is gone, the notes
    61 .. 75 keep their slots. *)
Lemma seventeen_note_ons :
  pressAll (sixteenNotes ++ 76%Z :: nil) idlePool
  = heldVoice 76 :: List.tl fullPool.
Proof.
  rewrite pressAll_app, pressAll_fills_pool, pressAll_cons.
  unfold pressAll. cbn [fold_left]. unfold setNoteOn.
  rewrite noteAlreadyDown_Forall by repeat constructor.
  rewrite getFreeVoiceIdx_exhausted by repeat constructor.
  reflexivity.
Qed.

(** The seventeenth note, 76, on the pool holding 60 .. 75. *)
Lemma noteOn_seventeenth_note :
  getFreeVoiceIdx fullPool = 0%Z /\
  exists v0 rest,
    fullPool = v0 :: rest /\
    setNoteOn 76 2 fullPool = pressVoice 76 2 v0 :: rest /\
    note (pressVoice 76 2 v0) = 76%Z /\
    pressTime (pressVoice 76 2 v0) = 2 /\
    finishedPlaying (pressVoice 76 2 v0) = false.
Proof.
  apply (noteOn_exhausted_reuses_slot_zero 76 2 fullPool).
  - reflexivity.
  - repeat constructor.
  - apply noteAlreadyDown_Forall. repeat constructor.
Defined.

(** ** The pool at process start *)

Lemma getRAttenuation_default_done (t : R) :
  0.1 <= t -> getRAttenuation defaultCurve t = 0.
Proof.
  intros Ht. unfold getRAttenuation. simpl.
  rewrite clamp_below; [ring | lra |].
  assert (1 <= t / 0.1) by (apply div_ge_1; lra). lra.
Qed.

Lemma voiceAttenuation_zeroVoice (t : R) :
  0.1 <= t -> voiceAttenuation zeroVoice t = (0, markFinished zeroVoice).
Proof.
  intros Ht. unfold voiceAttenuation. simpl.
  destruct (Rgt_dec 0 0.25); [lra|].
  rewrite getRAttenuation_default_done by lra.
  destruct (Req_dec_T 0 0); [reflexivity | congruence].
Qed.

(** C8 (as amended).  At process start every slot holds the zero voice, whose
    [finishedPlaying] flag is false; the allocator therefore finds no
    finished slot and falls back to index 0.  A slot becomes finished when
    the sample stage evaluates it: for the zero voice, at any sample time of
    at least 0.1 seconds. *)
Theorem initial_pool_unfinished (s : Settings) (i : nat) (t : R) :
  (i < NUM_VOICES)%nat -> 0.1 <= t ->
  initialVoices !! i = Some zeroVoice /\
  finishedPlaying zeroVoice = false /\
  getFreeVoiceIdx initialVoices = 0%Z /\
  voices (snd (getVoiceSample s initialSynth i t))
    = <[i := markFinished zeroVoice]> initialVoices.
Proof.
  intros Hi Ht.
  assert (Hl : initialVoices !! i = Some zeroVoice)
    by (apply lookup_replicate_2; exact Hi).
  split; [exact Hl|]. split; [reflexivity|]. split.
  - apply getFreeVoiceIdx_exhausted. unfold initialVoices.
    apply Forall_replicate. reflexivity.
  - unfold getVoiceSample. cbn [voices initialSynth]. rewrite Hl.
    cbn [finishedPlaying zeroVoice].
    destruct (rawSample s zeroVoice t) as [l r].
    rewrite voiceAttenuation_zeroVoice by exact Ht.
    destruct (enableBitcrush s), (enableCompressor s); reflexivity.
Qed.

Lemma initial_pool_unfinished_slot_zero :
  initialVoices !! 0%nat = Some zeroVoice /\
  finishedPlaying zeroVoice = false /\
  getFreeVoiceIdx initialVoices = 0%Z /\
  voices (snd (getVoiceSample defaultSettings initialSynth 0 1))
    = <[0%nat := markFinished zeroVoice]> initialVoices.
Proof.
  apply (initial_pool_unfinished defaultSettings 0 1).
  - unfold NUM_VOICES. lia.
  - lra.
Defined.

Lemma initial_voices_not_finished :
  ~ Forall (fun v => finishedPlaying v = true) initialVoices.
Proof.
  intros H. rewrite Forall_lookup in H.
  specialize (H 0%nat zeroVoice eq_refl). discriminate.
Qed.

(** ** Note-off *)

(** A pass through the loop body that does not break releases the first
    voice holding the note. *)
Lemma setNoteOffStep_Some (n : Z) (t : R) (vs vs' : list PolyphonicVoice) :
  setNoteOffStep n t vs = Some vs' ->
  exists k v,
    vs !! k = Some v /\ holds n v = true /\
    (forall j w, (j < k)%nat -> vs !! j = Some w -> holds n w = false) /\
    vs' = <[k := releaseVoice t v]> vs.
Proof.
  unfold setNoteOffStep, getVoiceWithNote.
  change (fun v : PolyphonicVoice => (note v =? n)%Z && Rgtb (volume v) 0)
    with (holds n).
  destruct (firstVoice (holds n) vs 0 NUM_VOICES) as [k|] eqn:E.
  - replace (Z.of_nat k =? -1)%Z with false by (symmetry; apply Z.eqb_neq; lia).
    intros H. injection H as <-. rewrite Nat2Z.id.
    apply firstVoice_Some in E. destruct E as (_ & (v & Hv & Hp) & Hbefore).
    exists k, v. repeat split; try assumption.
    + intros j w Hj. apply Hbefore. lia.
    + apply list_eq. intros j. destruct (Nat.eq_dec k j) as [<- | Hne].
      * rewrite list_lookup_alter_eq, Hv.
        rewrite list_lookup_insert_eq by (eapply lookup_lt_Some; exact Hv).
        reflexivity.
      * rewrite list_lookup_alter_ne, list_lookup_insert_ne by exact Hne.
        reflexivity.
  - simpl. discriminate.
Qed.

(** The loop breaks exactly when the search finds no voice holding the note. *)
Lemma setNoteOffStep_None (n : Z) (t : R) (vs : list PolyphonicVoice) :
  (length vs <= NUM_VOICES)%nat ->
  setNoteOffStep n t vs = None <-> heldCount n vs = 0%nat.
Proof.
  intros Hlen. unfold setNoteOffStep, getVoiceWithNote.
  change (fun v : PolyphonicVoice => (note v =? n)%Z && Rgtb (volume v) 0)
    with (holds n).
  destruct (firstVoice (holds n) vs 0 NUM_VOICES) as [k|] eqn:E.
  - replace (Z.of_nat k =? -1)%Z with false by (symmetry; apply Z.eqb_neq; lia).
    split; [discriminate|]. intros Hz.
    apply firstVoice_Some in E. destruct E as (_ & (v & Hv & Hp) & _).
    apply heldCount_zero in Hz. rewrite Forall_lookup in Hz.
    rewrite (Hz k v Hv) in Hp. discriminate.
  - simpl. split; [|reflexivity]. intros _.
    apply heldCount_zero. apply firstVoice_None_Forall; assumption.
Qed.

(** Each pass that does not break lowers the number of holders by one. *)
Lemma setNoteOffStep_decreases (n : Z) (t : R) (vs vs' : list PolyphonicVoice) :
  setNoteOffStep n t vs = Some vs' ->
  heldCount n vs = S (heldCount n vs') /\ length vs' = length vs.
Proof.
  intros H. destruct (setNoteOffStep_Some n t vs vs' H) as (k & v & Hv & Hh & _ & ->).
  rewrite list_insert_alter. split.
  - pose proof (heldCount_alter n (fun _ => releaseVoice t v) vs k v Hv) as Hc.
    rewrite Hh, holds_releaseVoice in Hc. simpl in Hc. lia.
  - apply length_alter.
Qed.

Lemma setNoteOff_runs (n : Z) (t : R) :
  forall (c : nat) (vs : list PolyphonicVoice),
    heldCount n vs = c -> (length vs <= NUM_VOICES)%nat ->
    exists vs',
      (forall fuel, (c < fuel)%nat -> setNoteOff fuel n t vs = Some vs') /\
      heldCount n vs' = 0%nat /\ length vs' = length vs.
Proof.
  induction c as [|c IH]; intros vs Hc Hlen.
  - exists vs. repeat split; [|exact Hc].
    intros [|fuel] Hf; [lia|]. simpl.
    apply (setNoteOffStep_None n t vs Hlen) in Hc. rewrite Hc. reflexivity.
  - destruct (setNoteOffStep n t vs) as [vs1|] eqn:E.
    + destruct (setNoteOffStep_decreases n t vs vs1 E) as [Hdec Hl1].
      destruct (IH vs1 ltac:(lia) ltac:(lia)) as (vs' & Hrun & Hz & Hl').
      exists vs'. repeat split; [|exact Hz|congruence].
      intros [|fuel] Hf; [lia|]. simpl. rewrite E. apply Hrun. lia.
    + apply (setNoteOffStep_None n t vs Hlen) in E. lia.
Qed.

(** C10.  For every note and every pool of [NUM_VOICES] voices the loop of
    [noteOff] terminates: every pass that does not break sets the gate of the
    first voice holding the note to 0 and lowers the number of holders by
    one, so any fuel above the initial number of holders yields the final
    pool; in it no voice holds the note; and when no voice holds the note at
    the start, the final pool is the initial one. *)
Theorem noteOff_terminates (n : Z) (t : R) (vs : list PolyphonicVoice) :
  length vs = NUM_VOICES ->
  (forall vs1 vs2, setNoteOffStep n t vs1 = Some vs2 ->
     (exists k v, vs1 !! k = Some v /\ holds n v = true /\
        (forall j w, (j < k)%nat -> vs1 !! j = Some w -> holds n w = false) /\
        vs2 = <[k := releaseVoice t v]> vs1 /\
        volume (releaseVoice t v) = 0) /\
     heldCount n vs1 = S (heldCount n vs2)) /\
  exists vs',
    (forall fuel, (heldCount n vs < fuel)%nat ->
       setNoteOff fuel n t vs = Some vs') /\
    Forall (fun v => holds n v = false) vs' /\
    (heldCount n vs = 0%nat -> vs' = vs).
Proof.
  intros Hlen. split.
  - intros vs1 vs2 H. split.
    + destruct (setNoteOffStep_Some n t vs1 vs2 H) as (k & v & Hv & Hh & Hb & E).
      exists k, v. repeat split; assumption.
    + apply (setNoteOffStep_decreases n t vs1 vs2 H).
  - destruct (setNoteOff_runs n t (heldCount n vs) vs eq_refl ltac:(lia))
      as (vs' & Hrun & Hz & _).
    exists vs'. repeat split.
    + exact Hrun.
    + apply heldCount_zero. exact Hz.
    + intros H0.
      assert (Hone : setNoteOff 1 n t vs = Some vs') by (apply Hrun; lia).
      simpl in Hone.
      apply (setNoteOffStep_None n t vs ltac:(lia)) in H0.
      rewrite H0 in Hone. congruence.
Qed.

(** Releasing note 60 on the pool holding 60 .. 75. *)
Lemma noteOff_terminates_full_pool :
  (forall vs1 vs2, setNoteOffStep 60 3 vs1 = Some vs2 ->
     (exists k v, vs1 !! k = Some v /\ holds 60 v = true /\
        (forall j w, (j < k)%nat -> vs1 !! j = Some w -> holds 60 w = false) /\
        vs2 = <[k := releaseVoice 3 v]> vs1 /\
        volume (releaseVoice 3 v) = 0) /\
     heldCount 60 vs1 = S (heldCount 60 vs2)) /\
  exists vs',
    (forall fuel, (heldCount 60 fullPool < fuel)%nat ->
       setNoteOff fuel 60 3 fullPool = Some vs') /\
    Forall (fun v => holds 60 v = false) vs' /\
    (heldCount 60 fullPool = 0%nat -> vs' = fullPool).
Proof.
  apply (noteOff_terminates 60 3 fullPool). reflexivity.
Defined.

(** * Further properties of the code *)

(** ** Scalar helpers *)

(** X1.  With ordered bounds [clamp] returns a value inside the bounds,
    returns a value that already lies inside unchanged, and is idempotent. *)
Theorem clamp_ordered_bounds (v lo hi : R) :
  lo <= hi ->
  lo <= clamp v lo hi <= hi /\
  (lo <= v <= hi -> clamp v lo hi = v) /\
  clamp (clamp v lo hi) lo hi = clamp v lo hi.
Proof.
  intros Hb. pose proof (clamp_range v lo hi Hb) as Hr.
  split; [exact Hr|]. split.
  - apply clamp_inside.
  - apply clamp_inside. exact Hr.
Qed.

Lemma clamp_ordered_bounds_example :
  1 <= clamp 40 1 31 <= 31 /\
  (1 <= 40 <= 31 -> clamp 40 1 31 = 40) /\
  clamp (clamp 40 1 31) 1 31 = clamp 40 1 31.
Proof. apply (clamp_ordered_bounds 40 1 31). lra. Defined.




(** ** Envelope *)

Lemma ads_unit_range (curve : ADSRCurve) (t : R) :
  0 <= sustainAmount curve <= 1 ->
  0 <= getADSAttenuation curve t <= 1.
Proof.
  intros HS. unfold getADSAttenuation, lerp.
  pose proof (clamp_range (t / attackTime curve) 0 1 ltac:(lra)) as H1.
  pose proof (clamp_range ((t - attackTime curve) / decayTime curve) 0 1
                ltac:(lra)) as H2.
  set (a := clamp (t / attackTime curve) 0 1) in *.
  set (b := clamp ((t - attackTime curve) / decayTime curve) 0 1) in *.
  set (S := sustainAmount curve) in *.
  assert (Hd : 0 <= 1 + (S - 1) * b <= 1).
  { assert (0 <= (1 - S) * b <= 1 - S) by (split; nra). lra. }
  set (d := 1 + (S - 1) * b) in *.
  split; nra.
Qed.

(** X3.  For a curve with positive attack and decay times and a sustain level
    between 0 and 1, the ADS attenuation lies in [0, 1] at every time, is 0
    at and before the press, and is exactly 1 at the end of the attack. *)
Theorem ads_attenuation_range (curve : ADSRCurve) (t : R) :
  0 < attackTime curve -> 0 < decayTime curve ->
  0 <= sustainAmount curve <= 1 ->
  0 <= getADSAttenuation curve t <= 1 /\
  (t <= 0 -> getADSAttenuation curve t = 0) /\
  getADSAttenuation curve (attackTime curve) = 1.
Proof.
  intros HA HD HS. split; [|split].
  - apply ads_unit_range. exact HS.
  - intros Ht. unfold getADSAttenuation.
    rewrite (clamp_below (t / attackTime curve))
      by (try lra; apply div_nonpos; lra).
    ring.
  - rewrite ads_attack by lra. field. lra.
Qed.

Lemma ads_attenuation_range_default :
  0 <= getADSAttenuation defaultCurve 0.3 <= 1 /\
  (0.3 <= 0 -> getADSAttenuation defaultCurve 0.3 = 0) /\
  getADSAttenuation defaultCurve (attackTime defaultCurve) = 1.
Proof. apply (ads_attenuation_range defaultCurve 0.3); simpl; lra. Defined.

Lemma release_linear (curve : ADSRCurve) (t : R) :
  0 < curveReleaseTime curve -> 0 <= t <= curveReleaseTime curve ->
  getRAttenuation curve t
  = (1 - t / curveReleaseTime curve) * sustainAmount curve.
Proof.
  intros HR Ht. unfold getRAttenuation.
  rewrite clamp_inside; [reflexivity|].
  pose proof (div_nonneg t _ HR ltac:(lra)).
  pose proof (div_le_1 t _ HR ltac:(lra)). lra.
Qed.

Lemma release_before (curve : ADSRCurve) (t : R) :
  0 < curveReleaseTime curve -> t <= 0 ->
  getRAttenuation curve t = sustainAmount curve.
Proof.
  intros HR Ht. unfold getRAttenuation.
  rewrite clamp_above; [ring | lra |].
  pose proof (div_nonpos t _ HR Ht). lra.
Qed.

Lemma release_after (curve : ADSRCurve) (t : R) :
  0 < curveReleaseTime curve -> curveReleaseTime curve <= t ->
  getRAttenuation curve t = 0.
Proof.
  intros HR Ht. unfold getRAttenuation.
  rewrite clamp_below; [ring | lra |].
  pose proof (div_ge_1 t _ HR Ht). lra.
Qed.

(** X4.  For a curve with positive release time and non-negative sustain
    level, the release attenuation starts at the sustain level (at and before
    the release), never rises, stays between 0 and the sustain level, and is
    0 from the release time on. *)
Theorem release_attenuation_shape (curve : ADSRCurve) :
  0 < curveReleaseTime curve -> 0 <= sustainAmount curve ->
  (forall t, t <= 0 -> getRAttenuation curve t = sustainAmount curve) /\
  (forall t1 t2, t1 <= t2 ->
     getRAttenuation curve t2 <= getRAttenuation curve t1) /\
  (forall t, 0 <= getRAttenuation curve t <= sustainAmount curve) /\
  (forall t, curveReleaseTime curve <= t -> getRAttenuation curve t = 0).
Proof.
  intros HR HS. repeat split.
  - intros t Ht. apply release_before; assumption.
  - intros t1 t2 H12. unfold getRAttenuation.
    pose proof (div_le_mono t1 t2 _ HR H12) as Hd.
    set (r := curveReleaseTime curve) in *.
    assert (Hc : clamp (1 - t2 / r) 0 1 <= clamp (1 - t1 / r) 0 1).
    { clamp_cases (1 - t2 / r) 0 1; clamp_cases (1 - t1 / r) 0 1; lra. }
    nra.
  - unfold getRAttenuation.
    pose proof (clamp_range (1 - t / curveReleaseTime curve) 0 1 ltac:(lra)).
    nra.
  - unfold getRAttenuation.
    pose proof (clamp_range (1 - t / curveReleaseTime curve) 0 1 ltac:(lra)).
    nra.
  - intros t Ht. apply release_after; assumption.
Qed.

Lemma release_attenuation_shape_default :
  (forall t, t <= 0 -> getRAttenuation defaultCurve t = sustainAmount defaultCurve) /\
  (forall t1 t2, t1 <= t2 ->
     getRAttenuation defaultCurve t2 <= getRAttenuation defaultCurve t1) /\
  (forall t, 0 <= getRAttenuation defaultCurve t <= sustainAmount defaultCurve) /\
  (forall t, curveReleaseTime defaultCurve <= t -> getRAttenuation defaultCurve t = 0).
Proof. apply (release_attenuation_shape defaultCurve); simpl; lra. Defined.

(** ** Waveform generators *)

Lemma truncate_succ (x : R) : 0 <= x -> truncate (x + 1) = (truncate x + 1)%Z.
Proof.
  intros Hx. unfold truncate.
  destruct (Rle_dec 0 (x + 1)) as [_ | N]; [|lra].
  destruct (Rle_dec 0 x) as [_ | N]; [|lra].
  symmetry. apply Int_part_spec. rewrite plus_IZR.
  destruct (base_Int_part x) as [H1 H2]. lra.
Qed.

Lemma fmod_unit_small (x : R) : 0 <= x < 1 -> fmod x 1 = x.
Proof.
  intros Hx. unfold fmod. replace (x / 1) with x by field.
  rewrite truncate_small by lra. ring.
Qed.

Lemma fmod_unit_succ (x : R) : 0 <= x -> fmod (x + 1) 1 = fmod x 1.
Proof.
  intros Hx. unfold fmod.
  replace ((x + 1) / 1) with (x + 1) by field.
  replace (x / 1) with x by field.
  rewrite truncate_succ by exact Hx. rewrite plus_IZR. ring.
Qed.

(** X5.  For a positive frequency and a non-negative time the sawtooth and
    the triangle repeat with period [1 / freq]; inside the first period the
    sawtooth is the ramp [2 * t * freq - 1], which starts at -1. *)
Theorem saw_periodic_ramp (t f : R) :
  0 < f -> 0 <= t ->
  saw (t + 1 / f) f = saw t f /\
  triangle (t + 1 / f) f = triangle t f /\
  (t * f < 1 -> saw t f = 2 * (t * f) - 1) /\
  saw 0 f = -1.
Proof.
  intros Hf Ht.
  assert (Hp : 0 <= t * f) by nra.
  assert (Hs : saw (t + 1 / f) f = saw t f).
  { unfold saw. replace ((t + 1 / f) * f) with (t * f + 1) by (field; lra).
    rewrite fmod_unit_succ by exact Hp. reflexivity. }
  split; [exact Hs|]. split; [|split].
  - unfold triangle. rewrite Hs. reflexivity.
  - intros Hlt. unfold saw. rewrite fmod_unit_small by lra. ring.
  - unfold saw. rewrite fmod_unit_small by lra. ring.
Qed.

Lemma saw_periodic_ramp_example :
  saw (0.001 + 1 / 440) 440 = saw 0.001 440 /\
  triangle (0.001 + 1 / 440) 440 = triangle 0.001 440 /\
  (0.001 * 440 < 1 -> saw 0.001 440 = 2 * (0.001 * 440) - 1) /\
  saw 0 440 = -1.
Proof. apply (saw_periodic_ramp 0.001 440); lra. Defined.



(** ** Pitch *)

Lemma pitch_pos (p : R) : 0 < pitch p.
Proof.
  unfold pitch. pose proof (powf_pos 1.059460646483 (p - 69)). lra.
Qed.

(** X7.  [pitch] maps note 69 to 440 Hz, is positive and strictly increasing,
    and one semitone up multiplies the frequency by the constant
    1.059460646483. *)
Theorem pitch_semitones (p q : R) :
  pitch 69 = 440 /\
  0 < pitch p /\
  pitch (p + 1) = 1.059460646483 * pitch p /\
  (p < q -> pitch p < pitch q).
Proof.
  unfold pitch, powf. repeat split.
  - replace (69 - 69) with 0 by ring. rewrite Rpower_O by lra. ring.
  - apply (pitch_pos p).
  - replace (p + 1 - 69) with (p - 69 + 1) by ring.
    rewrite Rpower_plus, Rpower_1 by lra. ring.
  - intros Hpq.
    assert (Rpower 1.059460646483 (p - 69) < Rpower 1.059460646483 (q - 69))
      by (apply Rpower_lt; lra).
    lra.
Qed.

Lemma pitch_semitones_example :
  pitch 69 = 440 /\
  0 < pitch 60 /\
  pitch (60 + 1) = 1.059460646483 * pitch 60 /\
  (60 < 72 -> pitch 60 < pitch 72).
Proof. apply (pitch_semitones 60 72). Defined.

Lemma semitone_pow_12 :
  1.9999 < 1.059460646483 ^ 12 < 2.
Proof. simpl. lra. Qed.

(** X8.  Twelve semitones up multiply the frequency by the twelfth power of
    the constant, which is a little less than 2: the octave above a note
    lies strictly between 1.9999 times and twice its frequency. *)
Theorem pitch_octave_is_flat (p : R) :
  pitch (p + 12) = 1.059460646483 ^ 12 * pitch p /\
  1.9999 * pitch p < pitch (p + 12) < 2 * pitch p.
Proof.
  assert (E : pitch (p + 12) = 1.059460646483 ^ 12 * pitch p).
  { unfold pitch, powf.
    replace (p + 12 - 69) with (INR 12 + (p - 69)) by (simpl; ring).
    rewrite Rpower_plus, Rpower_pow by lra. ring. }
  split; [exact E|]. rewrite E.
  pose proof semitone_pow_12 as [Hlo Hhi].
  pose proof (pitch_pos p) as Hpos.
  set (c := 1.059460646483 ^ 12) in *. split; nra.
Qed.

(** ** Panning and the unison engine *)

Lemma pan_range (s : Settings) (i : Z) :
  (0 <= i < unisonOrder s)%Z -> -1 <= getUnisonVoicePan s (IZR i) < 1.
Proof.
  intros [H0 H1]. unfold getUnisonVoicePan.
  assert (Ho : 0 < IZR (unisonOrder s)) by (apply IZR_lt; lia).
  assert (Hi0 : 0 <= IZR i) by (apply IZR_le; exact H0).
  assert (Hi1 : IZR i < IZR (unisonOrder s)) by (apply IZR_lt; exact H1).
  pose proof (div_nonneg (IZR i) _ Ho Hi0) as Hq0.
  assert (Hq1 : IZR i / IZR (unisonOrder s) < 1).
  { apply (Rmult_lt_reg_r (IZR (unisonOrder s))); [exact Ho|].
    unfold Rdiv. rewrite Rmult_assoc, Rinv_l by lra. lra. }
  lra.
Qed.

Lemma pan_gains_unit (pan : R) :
  -1 <= pan <= 1 ->
  0 <= panToLVol pan <= 1 /\ 0 <= panToRVol pan <= 1.
Proof.
  intros Hp. unfold panToLVol, panToRVol.
  destruct (Rlt_dec pan 0), (Rgt_dec pan 0); lra.
Qed.

(** X9.  For every tap index [i] with [0 <= i < order] the pan lies in
    [-1, 1), both channel gains lie in [0, 1], at least one of them is 1,
    and the right gain of a pan is the left gain of the opposite pan. *)
Theorem unison_pan_gains (s : Settings) (i : Z) :
  (0 <= i < unisonOrder s)%Z ->
  let pan := getUnisonVoicePan s (IZR i) in
  -1 <= pan < 1 /\
  0 <= panToLVol pan <= 1 /\
  0 <= panToRVol pan <= 1 /\
  (panToLVol pan = 1 \/ panToRVol pan = 1) /\
  panToRVol pan = panToLVol (- pan).
Proof.
  intros Hi pan. pose proof (pan_range s i Hi) as Hp. fold pan in Hp.
  destruct (pan_gains_unit pan ltac:(lra)) as [HL HR].
  repeat split; try lra.
  - unfold panToLVol, panToRVol.
    destruct (Rlt_dec pan 0), (Rgt_dec pan 0); lra.
  - unfold panToLVol, panToRVol.
    destruct (Rlt_dec (- pan) 0), (Rgt_dec pan 0); lra.
Qed.

Lemma unison_pan_gains_default_tap :
  let pan := getUnisonVoicePan defaultSettings (IZR 12) in
  -1 <= pan < 1 /\
  0 <= panToLVol pan <= 1 /\
  0 <= panToRVol pan <= 1 /\
  (panToLVol pan = 1 \/ panToRVol pan = 1) /\
  panToRVol pan = panToLVol (- pan).
Proof. apply (unison_pan_gains defaultSettings 12). simpl. lia. Defined.

Lemma unisonLoop_bound (s : Settings) (t f : R) (wf : WaveFunc) :
  (forall t' f', Rabs (wf t' f') <= 1) ->
  forall (n : nat) (i : Z) (out : R * R) (B : R),
    (0 <= i)%Z -> (i + Z.of_nat n <= unisonOrder s)%Z ->
    Rabs (fst out) <= B -> Rabs (snd out) <= B ->
    Rabs (fst (unisonLoop s t f wf n i out)) <= B + INR n /\
    Rabs (snd (unisonLoop s t f wf n i out)) <= B + INR n.
Proof.
  intros Hwf. induction n as [|n IH]; intros i out B Hi Hn Hl Hr.
  - simpl. split; lra.
  - cbn [unisonLoop].
    assert (Hs : Rabs (unisonVoiceSample s t f wf i) <= 1).
    { unfold unisonVoiceSample. destruct (negb (goofyUnison s)); apply Hwf. }
    pose proof (pan_range s i ltac:(lia)) as Hp.
    destruct (pan_gains_unit (getUnisonVoicePan s (IZR i)) ltac:(lra))
      as [HL HR].
    set (x := unisonVoiceSample s t f wf i) in *.
    set (gl := panToLVol (getUnisonVoicePan s (IZR i))) in *.
    set (gr := panToRVol (getUnisonVoicePan s (IZR i))) in *.
    assert (Hxl : Rabs (x * gl) <= 1).
    { rewrite Rabs_mult, (Rabs_pos_eq gl) by lra.
      pose proof (Rabs_pos x). nra. }
    assert (Hxr : Rabs (x * gr) <= 1).
    { rewrite Rabs_mult, (Rabs_pos_eq gr) by lra.
      pose proof (Rabs_pos x). nra. }
    destruct (IH (i + 1)%Z (fst out + x * gl, snd out + x * gr) (B + 1)
                ltac:(lia) ltac:(lia)) as [H1 H2].
    + simpl. pose proof (Rabs_triang (fst out) (x * gl)). lra.
    + simpl. pose proof (Rabs_triang (snd out) (x * gr)). lra.
    + rewrite S_INR. split; lra.
Qed.

(** X10.  With a positive unison order and a generator bounded by 1 in
    magnitude, both channels of the unison sum entered with zeroed outputs
    are bounded by 1 in magnitude, whatever the order and the detune. *)
Theorem unison_output_bounded (s : Settings) (t f : R) (wf : WaveFunc) :
  (0 < unisonOrder s)%Z ->
  (forall t' f', Rabs (wf t' f') <= 1) ->
  Rabs (fst (doUnisonDetune s (0, 0) t f wf)) <= 1 /\
  Rabs (snd (doUnisonDetune s (0, 0) t f wf)) <= 1.
Proof.
  intros Ho Hwf. unfold doUnisonDetune. cbn [fst snd].
  destruct (unisonLoop_bound s t f wf Hwf (Z.to_nat (unisonOrder s)) 0 (0, 0) 0
              ltac:(lia) ltac:(lia)) as [H1 H2];
    try (simpl; rewrite Rabs_R0; lra).
  rewrite INR_IZR_INZ, Z2Nat.id in H1, H2 by lia.
  assert (Hpos : 0 < IZR (unisonOrder s)) by (apply IZR_lt; lia).
  assert (Hdiv : forall x, Rabs x <= 0 + IZR (unisonOrder s) ->
                           Rabs (x / IZR (unisonOrder s)) <= 1).
  { intros x Hx. unfold Rdiv.
    rewrite Rabs_mult, (Rabs_pos_eq (/ IZR (unisonOrder s)))
      by (left; apply Rinv_0_lt_compat; exact Hpos).
    apply (Rmult_le_reg_r (IZR (unisonOrder s))); [exact Hpos|].
    rewrite Rmult_assoc, Rinv_l by lra. lra. }
  split; apply Hdiv; assumption.
Qed.

Lemma unison_output_bounded_default :
  Rabs (fst (doUnisonDetune defaultSettings (0, 0) 1 440 sine)) <= 1 /\
  Rabs (snd (doUnisonDetune defaultSettings (0, 0) 1 440 sine)) <= 1.
Proof.
  apply (unison_output_bounded defaultSettings 1 440 sine).
  - simpl. lia.
  - apply sine_bounded.
Defined.

(** ** Effects *)



(** X12.  [lowpass] moves the accumulator toward the input: the distance to
    the input is scaled by [1 - q], so for [q] in [0, 1] the new accumulator
    lies between the old accumulator and the input, and an accumulator equal
    to the input stays put.  The value returned is the new accumulator. *)
Theorem lowpass_contracts (accum val q : R) :
  0 <= q <= 1 ->
  fst (lowpass accum val q) = snd (lowpass accum val q) /\
  snd (lowpass accum val q) - val = (1 - q) * (accum - val) /\
  Rabs (snd (lowpass accum val q) - val) <= Rabs (accum - val) /\
  snd (lowpass val val q) = val.
Proof.
  intros Hq. unfold lowpass. cbn [fst snd]. repeat split.
  - ring.
  - replace (accum - q * (accum - val) - val) with ((1 - q) * (accum - val))
      by ring.
    rewrite Rabs_mult, (Rabs_pos_eq (1 - q)) by lra.
    pose proof (Rabs_pos (accum - val)). nra.
  - ring.
Qed.

Lemma lowpass_contracts_example :
  fst (lowpass 0 1 0.05) = snd (lowpass 0 1 0.05) /\
  snd (lowpass 0 1 0.05) - 1 = (1 - 0.05) * (0 - 1) /\
  Rabs (snd (lowpass 0 1 0.05) - 1) <= Rabs (0 - 1) /\
  snd (lowpass 1 1 0.05) = 1.
Proof. apply (lowpass_contracts 0 1 0.05). lra. Defined.

(** X13.  When the accumulator and the sample both lie in [-1, 1] and the
    coefficient in [0, 1], the sample returned by [compressor] is at most
    1/4 in magnitude. *)
Theorem compressor_output_quarter (accum val magic : R) :
  -1 <= accum <= 1 -> -1 <= val <= 1 -> 0 <= magic <= 1 ->
  Rabs (fst (compressor accum val magic)) <= 0.25.
Proof.
  intros Ha Hv Hm. rewrite compressor_eq. cbn [fst].
  set (v := val - magic * (val - accum)).
  assert (Hb : -1 <= v <= 1).
  { assert (H1 : - magic <= magic * accum <= magic) by (split; nra).
    assert (H2 : - (1 - magic) <= (1 - magic) * val <= 1 - magic)
      by (split; nra).
    replace v with ((1 - magic) * val + magic * accum) by (unfold v; ring).
    lra. }
  assert (Habs : 0 <= Rabs v <= 1)
    by (split; [apply Rabs_pos | apply Rabs_le; lra]).
  rewrite Rabs_mult, (Rabs_pos_eq (1 - Rabs v)) by lra.
  set (a := Rabs v) in *.
  pose proof (Rle_0_sqr (a - 0.5)) as Hsq. unfold Rsqr in Hsq. lra.
Qed.

Lemma compressor_output_quarter_example :
  Rabs (fst (compressor 0 1 0.05)) <= 0.25.
Proof. apply (compressor_output_quarter 0 1 0.05); lra. Defined.

(** ** Voice lookup and allocation *)

Lemma firstVoice_ext (p q : PolyphonicVoice -> bool)
    (vs : list PolyphonicVoice) (n : nat) :
  (forall v, p v = q v) ->
  forall i, firstVoice p vs i n = firstVoice q vs i n.
Proof.
  intros Hpq. induction n as [|n IH]; intros i; [reflexivity|].
  simpl. destruct (vs !! i) as [v|]; [|reflexivity].
  rewrite Hpq, IH. reflexivity.
Qed.

(** X14.  In a pool of [NUM_VOICES] slots [getFreeVoiceIdx] always returns an
    index inside the pool: the index of the first finished slot (every slot
    before it is unfinished) when there is one, and 0 when no slot is
    finished. *)
Theorem getFreeVoiceIdx_first_finished (vs : list PolyphonicVoice) :
  length vs = NUM_VOICES ->
  exists k v,
    getFreeVoiceIdx vs = Z.of_nat k /\ vs !! k = Some v /\
    ((finishedPlaying v = true /\
      forall j w, (j < k)%nat -> vs !! j = Some w -> finishedPlaying w = false)
     \/
     (k = 0%nat /\ Forall (fun w => finishedPlaying w = false) vs)).
Proof.
  intros Hlen. unfold getFreeVoiceIdx.
  destruct (firstVoice finishedPlaying vs 0 NUM_VOICES) as [k|] eqn:E.
  - destruct (firstVoice_Some _ _ _ _ _ E) as (_ & (v & Hv & Hf) & Hb).
    exists k, v. repeat split; try assumption.
    left. split; [exact Hf|]. intros j w Hj. apply Hb. lia.
  - destruct vs as [|v0 rest]; [discriminate|].
    exists 0%nat, v0. repeat split.
    right. split; [reflexivity|].
    apply firstVoice_None_Forall; [rewrite Hlen; lia | exact E].
Qed.

Lemma getFreeVoiceIdx_first_finished_example :
  exists k v,
    getFreeVoiceIdx (setNoteOn 60 0 idlePool) = Z.of_nat k /\
    setNoteOn 60 0 idlePool !! k = Some v /\
    ((finishedPlaying v = true /\
      forall j w, (j < k)%nat -> setNoteOn 60 0 idlePool !! j = Some w ->
                  finishedPlaying w = false)
     \/
     (k = 0%nat /\
      Forall (fun w => finishedPlaying w = false) (setNoteOn 60 0 idlePool))).
Proof.
  apply (getFreeVoiceIdx_first_finished (setNoteOn 60 0 idlePool)).
  rewrite (setNoteOn_alloc 60 0 idlePool 0) by (repeat constructor).
  reflexivity.
Defined.

(** X15.  The two searches for a held note agree: [noteAlreadyDown] is true
    exactly when [getVoiceWithNote] does not return -1, and an index it
    returns is that of the first voice of the pool that holds the note. *)
Theorem getVoiceWithNote_noteAlreadyDown (vs : list PolyphonicVoice) (n : Z) :
  noteAlreadyDown vs n = negb (getVoiceWithNote vs n =? -1)%Z /\
  (getVoiceWithNote vs n = (-1)%Z \/
   exists k v,
     getVoiceWithNote vs n = Z.of_nat k /\ (k < NUM_VOICES)%nat /\
     vs !! k = Some v /\ holds n v = true /\
     forall j w, (j < k)%nat -> vs !! j = Some w -> holds n w = false).
Proof.
  unfold noteAlreadyDown, getVoiceWithNote.
  rewrite (firstVoice_ext
             (fun v => Rgtb (volume v) 0 && (note v =? n)%Z) (holds n))
    by (intros v; unfold holds; apply andb_comm).
  change (fun v : PolyphonicVoice => (note v =? n)%Z && Rgtb (volume v) 0)
    with (holds n).
  destruct (firstVoice (holds n) vs 0 NUM_VOICES) as [k|] eqn:E.
  - split.
    + replace (Z.of_nat k =? -1)%Z with false
        by (symmetry; apply Z.eqb_neq; lia).
      reflexivity.
    + right. destruct (firstVoice_Some _ _ _ _ _ E) as (Hk & (v & Hv & Hh) & Hb).
      exists k, v. repeat split; try assumption; [lia|].
      intros j w Hj. apply Hb. lia.
  - split; [reflexivity | left; reflexivity].
Qed.

Lemma press_insert (n : Z) (t : R) (vs : list PolyphonicVoice) (k : nat)
    (v : PolyphonicVoice) :
  vs !! k = Some v ->
  alter (pressVoice n t) k vs = <[k := pressVoice n t v]> vs.
Proof.
  intros Hv. apply list_eq. intros j. destruct (Nat.eq_dec k j) as [<- | Hne].
  - rewrite list_lookup_alter_eq, Hv.
    rewrite list_lookup_insert_eq by (eapply lookup_lt_Some; exact Hv).
    reflexivity.
  - rewrite list_lookup_alter_ne, list_lookup_insert_ne by exact Hne.
    reflexivity.
Qed.

(** X16.  While the pool has a finished slot, a note-on of a note that is
    not held takes the first finished slot and disturbs no unfinished voice:
    every unfinished voice is found unchanged at its index afterwards. *)
Theorem setNoteOn_takes_free_slot (n : Z) (t : R) (vs : list PolyphonicVoice) :
  length vs = NUM_VOICES ->
  Exists (fun v => finishedPlaying v = true) vs ->
  noteAlreadyDown vs n = false ->
  exists k v,
    vs !! k = Some v /\ finishedPlaying v = true /\
    (forall j w, (j < k)%nat -> vs !! j = Some w -> finishedPlaying w = false) /\
    setNoteOn n t vs = <[k := pressVoice n t v]> vs /\
    (forall j w, vs !! j = Some w -> finishedPlaying w = false ->
                 setNoteOn n t vs !! j = Some w).
Proof.
  intros Hlen Hex Hdown.
  destruct (getFreeVoiceIdx_slot vs ltac:(rewrite Hlen; unfold NUM_VOICES; lia))
    as (k0 & Hk0 & _).
  unfold getFreeVoiceIdx in Hk0.
  destruct (firstVoice finishedPlaying vs 0 NUM_VOICES) as [k|] eqn:E.
  - destruct (firstVoice_Some _ _ _ _ _ E) as (_ & (v & Hv & Hf) & Hb).
    assert (Hon : setNoteOn n t vs = <[k := pressVoice n t v]> vs).
    { unfold setNoteOn, getFreeVoiceIdx. rewrite Hdown, E, Nat2Z.id.
      apply press_insert. exact Hv. }
    exists k, v. repeat split; try assumption.
    + intros j w Hj. apply Hb. lia.
    + intros j w Hw Hfw. rewrite Hon.
      destruct (Nat.eq_dec k j) as [<- | Hne]; [congruence|].
      rewrite list_lookup_insert_ne by exact Hne. exact Hw.
  - apply firstVoice_None_Forall in E; [|rewrite Hlen; lia].
    rewrite Exists_exists in Hex. destruct Hex as (v & Hin & Hf).
    rewrite Forall_forall in E. rewrite (E v Hin) in Hf. discriminate.
Qed.

Lemma setNoteOn_takes_free_slot_example :
  exists k v,
    oneHeldPool !! k = Some v /\ finishedPlaying v = true /\
    (forall j w, (j < k)%nat -> oneHeldPool !! j = Some w ->
                 finishedPlaying w = false) /\
    setNoteOn 61 1 oneHeldPool = <[k := pressVoice 61 1 v]> oneHeldPool /\
    (forall j w, oneHeldPool !! j = Some w -> finishedPlaying w = false ->
                 setNoteOn 61 1 oneHeldPool !! j = Some w).
Proof.
  apply (setNoteOn_takes_free_slot 61 1 oneHeldPool).
  - reflexivity.
  - apply Exists_cons_tl. apply Exists_cons_hd. reflexivity.
  - apply noteAlreadyDown_Forall. repeat constructor.
Defined.

(** ** Note-off in closed form *)

Lemma heldCount_le_length (n : Z) (vs : list PolyphonicVoice) :
  (heldCount n vs <= length vs)%nat.
Proof.
  induction vs as [|v vs IH]; [reflexivity|].
  rewrite heldCount_cons. simpl. unfold b2n. destruct (holds n v); lia.
Qed.

Lemma releaseIfHolds_not_held (n : Z) (t : R) (vs : list PolyphonicVoice) :
  Forall (fun v => holds n v = false) vs ->
  List.map (releaseIfHolds n t) vs = vs.
Proof.
  induction 1 as [|v vs Hv _ IH]; [reflexivity|].
  simpl. unfold releaseIfHolds at 1. rewrite Hv, IH. reflexivity.
Qed.

Lemma releaseIfHolds_insert (n : Z) (t : R) :
  forall (vs : list PolyphonicVoice) (k : nat) (v : PolyphonicVoice),
    vs !! k = Some v -> holds n v = true ->
    List.map (releaseIfHolds n t) (<[k := releaseVoice t v]> vs)
    = List.map (releaseIfHolds n t) vs.
Proof.
  induction vs as [|x vs IH]; intros k v Hk Hh; [discriminate|].
  destruct k as [|k]; simpl in Hk.
  - injection Hk as ->. cbn [insert list_insert List.map]. f_equal.
    unfold releaseIfHolds. rewrite holds_releaseVoice, Hh. reflexivity.
  - cbn [insert list_insert List.map]. f_equal. apply IH; assumption.
Qed.

Lemma setNoteOff_map (n : Z) (t : R) :
  forall (c : nat) (vs : list PolyphonicVoice),
    heldCount n vs = c -> (length vs <= NUM_VOICES)%nat ->
    forall fuel, (c < fuel)%nat ->
      setNoteOff fuel n t vs = Some (List.map (releaseIfHolds n t) vs).
Proof.
  induction c as [|c IH]; intros vs Hc Hlen [|fuel] Hf; try lia.
  - simpl. rewrite (proj2 (setNoteOffStep_None n t vs Hlen) Hc).
    rewrite releaseIfHolds_not_held by (apply heldCount_zero; exact Hc).
    reflexivity.
  - simpl. destruct (setNoteOffStep n t vs) as [vs1|] eqn:E.
    + destruct (setNoteOffStep_decreases n t vs vs1 E) as [Hdec Hl1].
      assert (Hc1 : heldCount n vs1 = c) by lia.
      assert (Hlen1 : (length vs1 <= NUM_VOICES)%nat) by lia.
      rewrite (IH vs1 Hc1 Hlen1 fuel ltac:(lia)).
      destruct (setNoteOffStep_Some n t vs vs1 E) as (k & v & Hv & Hh & _ & ->).
      rewrite releaseIfHolds_insert by assumption. reflexivity.
    + apply (setNoteOffStep_None n t vs Hlen) in E. lia.
Qed.

Lemma noteOff_eq (n : Z) (t : R) (vs : list PolyphonicVoice) :
  (length vs <= NUM_VOICES)%nat ->
  noteOff n t vs = Some (List.map (releaseIfHolds n t) vs).
Proof.
  intros Hlen. unfold noteOff.
  apply (setNoteOff_map n t (heldCount n vs) vs eq_refl Hlen).
  pose proof (heldCount_le_length n vs). lia.
Qed.

(** X17.  On a pool of [NUM_VOICES] slots the loop of [setNoteOff], run with
    [NUM_VOICES + 1] passes, always ends, and its result is the pool in which
    exactly the voices that held the note have gate 0 and the release time
    of the call; their other fields, and all other voices, are as before. *)
Theorem noteOff_releases_exactly_holders (n : Z) (t : R)
    (vs : list PolyphonicVoice) :
  length vs = NUM_VOICES ->
  exists vs',
    noteOff n t vs = Some vs' /\ length vs' = length vs /\
    forall k v, vs !! k = Some v ->
      exists v', vs' !! k = Some v' /\
        note v' = note v /\ freq v' = freq v /\
        finishedPlaying v' = finishedPlaying v /\ pressTime v' = pressTime v /\
        (holds n v = true -> volume v' = 0 /\ releaseTime v' = t) /\
        (holds n v = false -> v' = v).
Proof.
  intros Hlen. exists (List.map (releaseIfHolds n t) vs).
  split; [apply noteOff_eq; lia|]. split; [apply length_map|].
  intros k v Hv. exists (releaseIfHolds n t v). split.
  - change (List.map (releaseIfHolds n t) vs) with (releaseIfHolds n t <$> vs).
    rewrite list_lookup_fmap, Hv. reflexivity.
  - unfold releaseIfHolds. destruct (holds n v); simpl;
      repeat split; try reflexivity; intros; discriminate.
Qed.

Lemma noteOff_releases_exactly_holders_example :
  exists vs',
    noteOff 60 3 fullPool = Some vs' /\ length vs' = length fullPool /\
    forall k v, fullPool !! k = Some v ->
      exists v', vs' !! k = Some v' /\
        note v' = note v /\ freq v' = freq v /\
        finishedPlaying v' = finishedPlaying v /\ pressTime v' = pressTime v /\
        (holds 60 v = true -> volume v' = 0 /\ releaseTime v' = 3) /\
        (holds 60 v = false -> v' = v).
Proof. apply (noteOff_releases_exactly_holders 60 3 fullPool). reflexivity. Defined.

Lemma releaseIfHolds_twice (n : Z) (t t' : R) (v : PolyphonicVoice) :
  releaseIfHolds n t' (releaseIfHolds n t v) = releaseIfHolds n t v.
Proof.
  unfold releaseIfHolds. destruct (holds n v) eqn:Hh.
  - rewrite holds_releaseVoice. reflexivity.
  - rewrite Hh. reflexivity.
Qed.

Lemma holds_two_notes (n m : Z) (v : PolyphonicVoice) :
  n <> m -> holds n v = true -> holds m v = false.
Proof.
  intros Hnm Hn. unfold holds in *.
  apply andb_true_iff in Hn. destruct Hn as [Hn _].
  apply Z.eqb_eq in Hn.
  replace (note v =? m)%Z with false by (symmetry; apply Z.eqb_neq; lia).
  reflexivity.
Qed.

Lemma releaseIfHolds_swap (n m : Z) (t t' : R) (v : PolyphonicVoice) :
  n <> m ->
  releaseIfHolds m t' (releaseIfHolds n t v)
  = releaseIfHolds n t (releaseIfHolds m t' v).
Proof.
  intros Hnm. unfold releaseIfHolds.
  destruct (holds n v) eqn:Hn, (holds m v) eqn:Hm.
  - rewrite (holds_two_notes n m v Hnm Hn) in Hm. discriminate.
  - cbn iota. rewrite ?holds_releaseVoice, ?Hn, ?Hm. reflexivity.
  - cbn iota. rewrite ?holds_releaseVoice, ?Hn, ?Hm. reflexivity.
  - cbn iota. rewrite ?Hn, ?Hm. reflexivity.
Qed.

(** X18.  On a pool of [NUM_VOICES] slots a second note-off for the same
    note changes nothing, whatever its time stamp, and note-offs for two
    different notes can be applied in either order. *)
Theorem noteOff_idempotent_commutes (n m : Z) (t t' : R)
    (vs : list PolyphonicVoice) :
  length vs = NUM_VOICES ->
  (noteOff n t vs ≫= noteOff n t') = noteOff n t vs /\
  (n <> m ->
   (noteOff n t vs ≫= noteOff m t') = (noteOff m t' vs ≫= noteOff n t)).
Proof.
  intros Hlen.
  assert (Hl : forall k u, (length (List.map (releaseIfHolds k u) vs)
                            <= NUM_VOICES)%nat)
    by (intros; rewrite length_map; lia).
  split.
  - rewrite (noteOff_eq n t vs) by lia. cbn [mbind option_bind].
    rewrite noteOff_eq by apply Hl. f_equal.
    rewrite List.map_map. apply List.map_ext. intros v.
    apply releaseIfHolds_twice.
  - intros Hnm.
    rewrite (noteOff_eq n t vs), (noteOff_eq m t' vs) by lia.
    cbn [mbind option_bind].
    rewrite !noteOff_eq by apply Hl. f_equal.
    rewrite !List.map_map. apply List.map_ext. intros v.
    apply releaseIfHolds_swap. exact Hnm.
Qed.

Lemma noteOff_idempotent_commutes_example :
  (noteOff 60 3 fullPool ≫= noteOff 60 4) = noteOff 60 3 fullPool /\
  (60%Z <> 64%Z ->
   (noteOff 60 3 fullPool ≫= noteOff 64 4)
   = (noteOff 64 4 fullPool ≫= noteOff 60 3)).
Proof. apply (noteOff_idempotent_commutes 60 64 3 4 fullPool). reflexivity. Defined.

Lemma noteOff_pressed_slot (n : Z) (t1 t2 : R) (vs : list PolyphonicVoice)
    (k : nat) (v : PolyphonicVoice) :
  (length vs <= NUM_VOICES)%nat ->
  Forall (fun w => holds n w = false) vs ->
  vs !! k = Some v ->
  noteOff n t2 (alter (pressVoice n t1) k vs)
  = Some (<[k := {| note := n; finishedPlaying := false;
                    freq := pitch (IZR n); volume := 0;
                    pressTime := t1; releaseTime := t2 |}]> vs).
Proof.
  intros Hlen Hnone Hv.
  rewrite noteOff_eq by (rewrite length_alter; lia).
  f_equal. apply list_eq. intros j.
  change (List.map (releaseIfHolds n t2) (alter (pressVoice n t1) k vs))
    with (releaseIfHolds n t2 <$> alter (pressVoice n t1) k vs).
  rewrite list_lookup_fmap. rewrite Forall_lookup in Hnone.
  destruct (Nat.eq_dec k j) as [<- | Hne].
  - rewrite list_lookup_alter_eq, Hv.
    rewrite list_lookup_insert_eq by (eapply lookup_lt_Some; exact Hv).
    simpl. unfold releaseIfHolds. rewrite holds_pressVoice. reflexivity.
  - rewrite list_lookup_alter_ne, list_lookup_insert_ne by exact Hne.
    destruct (vs !! j) as [w|] eqn:Hw; [|reflexivity].
    simpl. unfold releaseIfHolds. rewrite (Hnone j w Hw). reflexivity.
Qed.

(** X19.  Round trip of one note: on a pool of [NUM_VOICES] slots where the
    note is not held, note-on at [t1] followed by note-off at [t2] changes
    exactly the allocated slot, which ends up carrying the note with gate 0,
    press time [t1], release time [t2] and [finishedPlaying] still false:
    the release does not free the slot. *)
Theorem noteOn_noteOff_round_trip (n : Z) (t1 t2 : R)
    (vs : list PolyphonicVoice) :
  length vs = NUM_VOICES ->
  noteAlreadyDown vs n = false ->
  exists k,
    getFreeVoiceIdx vs = Z.of_nat k /\ (k < NUM_VOICES)%nat /\
    noteOff n t2 (setNoteOn n t1 vs)
    = Some (<[k := {| note := n; finishedPlaying := false;
                      freq := pitch (IZR n); volume := 0;
                      pressTime := t1; releaseTime := t2 |}]> vs).
Proof.
  intros Hlen Hdown.
  destruct (setNoteOn_fresh n t1 vs ltac:(rewrite Hlen; unfold NUM_VOICES; lia)
              Hdown) as (k & v & Hk & Hv & Hfree & Hon).
  exists k. split; [exact Hfree|]. split; [exact Hk|].
  pose proof (noteAlreadyDown_false vs n ltac:(lia) Hdown) as Hnone.
  rewrite Hon. apply (noteOff_pressed_slot n t1 t2 vs k v); [lia | exact Hnone | exact Hv].
Qed.

Lemma noteOn_noteOff_round_trip_example :
  exists k,
    getFreeVoiceIdx oneHeldPool = Z.of_nat k /\ (k < NUM_VOICES)%nat /\
    noteOff 64 2 (setNoteOn 64 1 oneHeldPool)
    = Some (<[k := {| note := 64; finishedPlaying := false;
                      freq := pitch (IZR 64); volume := 0;
                      pressTime := 1; releaseTime := 2 |}]> oneHeldPool).
Proof.
  apply (noteOn_noteOff_round_trip 64 1 2 oneHeldPool).
  - reflexivity.
  - apply noteAlreadyDown_Forall. repeat constructor.
Defined.

(** ** What rendering does to the pool *)

Lemma voiceAttenuation_voice (v : PolyphonicVoice) (t : R) :
  snd (voiceAttenuation v t) = v \/ snd (voiceAttenuation v t) = markFinished v.
Proof.
  unfold voiceAttenuation. destruct (Rgt_dec (volume v) 0.25); [left; reflexivity|].
  match goal with |- context [if ?b then _ else _] => destruct b end;
    [right | left]; reflexivity.
Qed.

Lemma voiceAttenuation_held (v : PolyphonicVoice) (t : R) :
  volume v > 0.25 -> snd (voiceAttenuation v t) = v.
Proof.
  intros Hv. unfold voiceAttenuation.
  destruct (Rgt_dec (volume v) 0.25); [reflexivity | lra].
Qed.

Lemma release_default_zero_iff (t : R) :
  getRAttenuation defaultCurve t = 0 <-> 0.1 <= t.
Proof.
  split.
  - intros H. destruct (Rle_dec 0.1 t) as [Hle | Hlt]; [exact Hle|].
    exfalso. unfold getRAttenuation in H. simpl in H.
    assert (Hq : t / 0.1 < 1).
    { apply (Rmult_lt_reg_r 0.1); [lra|].
      unfold Rdiv. rewrite Rmult_assoc, Rinv_l by lra. lra. }
    assert (Hc : 0 < clamp (1 - t / 0.1) 0 1).
    { clamp_cases (1 - t / 0.1) 0 1; lra. }
    nra.
  - apply getRAttenuation_default_done.
Qed.

Lemma voiceAttenuation_released (v : PolyphonicVoice) (t : R) :
  volume v <= 0.25 ->
  snd (voiceAttenuation v t)
  = (if Rle_dec (releaseTime v + 0.1) t then markFinished v else v).
Proof.
  intros Hv. unfold voiceAttenuation.
  destruct (Rgt_dec (volume v) 0.25); [lra|].
  destruct (Rle_dec (releaseTime v + 0.1) t) as [Hle | Hlt].
  - rewrite getRAttenuation_default_done by lra.
    destruct (Req_dec_T 0 0); [reflexivity | congruence].
  - destruct (Req_dec_T (getRAttenuation defaultCurve (t - releaseTime v)) 0)
      as [E | _].
    + apply release_default_zero_iff in E. lra.
    + simpl. rewrite Rgtb_false by lra. reflexivity.
Qed.

Lemma getVoiceSample_voices (s : Settings) (st : Synth) (i : nat) (t : R) :
  voices (snd (getVoiceSample s st i t)) = alter (stageVoice t) i (voices st).
Proof.
  apply list_eq. intros j. unfold getVoiceSample.
  destruct (voices st !! i) as [v|] eqn:Hv.
  - assert (Hi : (i < length (voices st))%nat)
      by (eapply lookup_lt_Some; exact Hv).
    destruct (finishedPlaying v) eqn:Hf.
    + cbn [snd]. destruct (Nat.eq_dec i j) as [<- | Hne].
      * rewrite list_lookup_alter_eq, Hv. simpl.
        unfold stageVoice. rewrite Hf. reflexivity.
      * rewrite list_lookup_alter_ne by exact Hne. reflexivity.
    + destruct (rawSample s v t) as [l r].
      destruct (voiceAttenuation v t) as [a v'] eqn:Ha.
      assert (Hst : stageVoice t v = v')
        by (unfold stageVoice; rewrite Hf, Ha; reflexivity).
      destruct (enableBitcrush s), (enableCompressor s);
        unfold compressor, lowpass; cbn [snd voices fst];
        (destruct (Nat.eq_dec i j) as [<- | Hne];
         [ rewrite list_lookup_alter_eq, Hv,
             list_lookup_insert_eq by exact Hi; simpl; congruence
         | rewrite list_lookup_alter_ne, list_lookup_insert_ne by exact Hne;
           reflexivity ]).
  - cbn [snd]. destruct (Nat.eq_dec i j) as [<- | Hne].
    + rewrite list_lookup_alter_eq, Hv. reflexivity.
    + rewrite list_lookup_alter_ne by exact Hne. reflexivity.
Qed.

Lemma mixVoices_lookup (s : Settings) (t : R) (n : nat) :
  forall (j : nat) (frame : R * R) (st : Synth) (k : nat),
    voices (snd (mixVoices s t n j frame st)) !! k
    = if decide (j <= k < j + n)%nat
      then stageVoice t <$> voices st !! k
      else voices st !! k.
Proof.
  induction n as [|n IH]; intros j frame st k.
  - simpl. destruct (decide (j <= k < j + 0)%nat); [lia | reflexivity].
  - cbn [mixVoices].
    pose proof (getVoiceSample_voices s st j t) as Hg.
    destruct (getVoiceSample s st j t) as [[l r] st']. cbn [snd] in Hg.
    rewrite IH, Hg.
    destruct (decide (S j <= k < S j + n)%nat) as [H1 | H1],
             (decide (j <= k < j + S n)%nat) as [H2 | H2]; try lia.
    + rewrite list_lookup_alter_ne by lia. reflexivity.
    + assert (k = j) by lia. subst k. apply list_lookup_alter_eq.
    + rewrite list_lookup_alter_ne by lia. reflexivity.
Qed.

Lemma renderFrame_voices (s : Settings) (t : R) (st : Synth) :
  (length (voices st) <= NUM_VOICES)%nat ->
  voices (snd (renderFrame s t st)) = stageVoice t <$> voices st.
Proof.
  intros Hlen. apply list_eq. intros k. unfold renderFrame.
  rewrite mixVoices_lookup, list_lookup_fmap.
  destruct (decide (0 <= k < 0 + NUM_VOICES)%nat) as [H | H]; [reflexivity|].
  rewrite lookup_ge_None_2 by lia. reflexivity.
Qed.

Lemma stageVoice_fields (t : R) (v : PolyphonicVoice) :
  note (stageVoice t v) = note v /\ freq (stageVoice t v) = freq v /\
  volume (stageVoice t v) = volume v /\
  pressTime (stageVoice t v) = pressTime v /\
  releaseTime (stageVoice t v) = releaseTime v.
Proof.
  unfold stageVoice. destruct (finishedPlaying v); [repeat split|].
  destruct (voiceAttenuation_voice v t) as [-> | ->]; repeat split.
Qed.

(** X20.  What one rendered frame does to a voice of a pool of
    [NUM_VOICES] slots, whatever the settings: note, frequency, gate and time
    stamps are kept; a finished voice and a voice with gate above 0.25 are
    left as they are; an unfinished voice with gate at most 0.25 becomes
    finished exactly when the sample time has reached its release time plus
    0.1 seconds. *)
Theorem renderFrame_voice_effect (s : Settings) (t : R) (st : Synth) (k : nat)
    (v : PolyphonicVoice) :
  length (voices st) = NUM_VOICES ->
  voices st !! k = Some v ->
  exists v',
    voices (snd (renderFrame s t st)) !! k = Some v' /\
    note v' = note v /\ freq v' = freq v /\ volume v' = volume v /\
    pressTime v' = pressTime v /\ releaseTime v' = releaseTime v /\
    (finishedPlaying v = true -> v' = v) /\
    (volume v > 0.25 -> v' = v) /\
    (finishedPlaying v = false -> volume v <= 0.25 ->
     (finishedPlaying v' = true <-> releaseTime v + 0.1 <= t)).
Proof.
  intros Hlen Hv. exists (stageVoice t v).
  rewrite renderFrame_voices by lia.
  rewrite list_lookup_fmap, Hv.
  destruct (stageVoice_fields t v) as (H1 & H2 & H3 & H4 & H5).
  split; [reflexivity|].
  do 5 (split; [assumption|]). split; [|split].
  - intros Hf. unfold stageVoice. rewrite Hf. reflexivity.
  - intros Hg. unfold stageVoice. destruct (finishedPlaying v); [reflexivity|].
    apply voiceAttenuation_held. exact Hg.
  - intros Hf Hg. unfold stageVoice.
    rewrite Hf, voiceAttenuation_released by exact Hg.
    destruct (Rle_dec (releaseTime v + 0.1) t) as [Hle | Hlt].
    + split; [intros _; exact Hle | intros _; reflexivity].
    + split; [rewrite Hf; discriminate | lra].
Qed.

Lemma renderFrame_voice_effect_example :
  exists v',
    voices (snd (renderFrame defaultSettings 1 initialSynth)) !! 3%nat = Some v' /\
    note v' = note zeroVoice /\ freq v' = freq zeroVoice /\
    volume v' = volume zeroVoice /\
    pressTime v' = pressTime zeroVoice /\ releaseTime v' = releaseTime zeroVoice /\
    (finishedPlaying zeroVoice = true -> v' = zeroVoice) /\
    (volume zeroVoice > 0.25 -> v' = zeroVoice) /\
    (finishedPlaying zeroVoice = false -> volume zeroVoice <= 0.25 ->
     (finishedPlaying v' = true <-> releaseTime zeroVoice + 0.1 <= 1)).
Proof.
  apply (renderFrame_voice_effect defaultSettings 1 initialSynth 3 zeroVoice);
    reflexivity.
Defined.

(** X21.  Round trip of a note through the render loop: on a pool of
    [NUM_VOICES] slots where the note is not held, note-on at [t1], note-off
    at [t2] and one frame rendered at least 0.1 seconds after [t2] leave the
    allocated slot finished, so that it can be allocated again. *)
Theorem note_round_trip_frees_slot (n : Z) (t1 t2 t : R) (s : Settings)
    (st : Synth) :
  length (voices st) = NUM_VOICES ->
  noteAlreadyDown (voices st) n = false ->
  t2 + 0.1 <= t ->
  exists k st',
    getFreeVoiceIdx (voices st) = Z.of_nat k /\
    runEvents (EvNoteOn n t1 :: EvNoteOff n t2 :: EvFrame s t :: nil) st
      = Some st' /\
    voices st' !! k
      = Some {| note := n; finishedPlaying := true; freq := pitch (IZR n);
                volume := 0; pressTime := t1; releaseTime := t2 |}.
Proof.
  intros Hlen Hdown Ht.
  destruct (setNoteOn_fresh n t1 (voices st)
              ltac:(rewrite Hlen; unfold NUM_VOICES; lia) Hdown)
    as (k & v & Hk & Hv & Hfree & Hon).
  pose proof (noteAlreadyDown_false (voices st) n ltac:(lia) Hdown) as Hnone.
  pose proof (noteOff_pressed_slot n t1 t2 (voices st) k v ltac:(lia) Hnone Hv)
    as Hoff.
  exists k. eexists. split; [exact Hfree|]. split.
  - cbn [runEvents applyEvent mbind option_bind voices]. rewrite Hon, Hoff.
    cbn [mbind option_bind]. reflexivity.
  - rewrite renderFrame_voices
      by (cbn [voices]; rewrite length_insert; lia).
    cbn [voices]. rewrite list_lookup_fmap.
    rewrite list_lookup_insert_eq by (eapply lookup_lt_Some; exact Hv).
    cbn [fmap option_fmap option_map]. f_equal.
    unfold stageVoice. cbn [finishedPlaying].
    rewrite voiceAttenuation_released by (simpl; lra).
    cbn [releaseTime].
    destruct (Rle_dec (t2 + 0.1) t); [reflexivity | lra].
Qed.

Lemma note_round_trip_frees_slot_example :
  exists k st',
    getFreeVoiceIdx (voices initialSynth) = Z.of_nat k /\
    runEvents (EvNoteOn 60 0 :: EvNoteOff 60 0.5
                 :: EvFrame defaultSettings 0.75 :: nil) initialSynth
      = Some st' /\
    voices st' !! k
      = Some {| note := 60; finishedPlaying := true; freq := pitch (IZR 60);
                volume := 0; pressTime := 0; releaseTime := 0.5 |}.
Proof.
  apply (note_round_trip_frees_slot 60 0 0.5 0.75 defaultSettings initialSynth).
  - reflexivity.
  - apply noteAlreadyDown_Forall. repeat constructor.
  - lra.
Defined.

Lemma getVoiceSample_idle (s : Settings) (st : Synth) (i : nat) (t : R) :
  Forall (fun v => finishedPlaying v = true) (voices st) ->
  getVoiceSample s st i t = ((0, 0), st).
Proof.
  intros Hall. unfold getVoiceSample.
  destruct (voices st !! i) as [v|] eqn:Hv; [|reflexivity].
  rewrite Forall_lookup in Hall. rewrite (Hall i v Hv). reflexivity.
Qed.

Lemma mixVoices_idle (s : Settings) (t : R) (n : nat) :
  forall (j : nat) (l r : R) (st : Synth),
    Forall (fun v => finishedPlaying v = true) (voices st) ->
    mixVoices s t n j (l, r) st = ((l, r), st).
Proof.
  induction n as [|n IH]; intros j l r st Hall; [reflexivity|].
  cbn [mixVoices]. rewrite getVoiceSample_idle by exact Hall.
  cbn [fst snd].
  replace (l + 0 * 0.25) with l by ring.
  replace (r + 0 * 0.25) with r by ring.
  apply IH. exact Hall.
Qed.

(** X22.  When every voice of the pool is finished, a rendered frame is
    silent on both channels and leaves the synthesis state untouched,
    whatever the settings and the sample time. *)
Theorem renderFrame_idle_silence (s : Settings) (t : R) (st : Synth) :
  Forall (fun v => finishedPlaying v = true) (voices st) ->
  renderFrame s t st = ((0, 0), st).
Proof.
  intros Hall. unfold renderFrame. apply mixVoices_idle. exact Hall.
Qed.

Lemma renderFrame_idle_silence_example :
  renderFrame defaultSettings 1
    {| voices := idlePool; lLpAccum := 0; rLpAccum := 0 |}
  = ((0, 0), {| voices := idlePool; lLpAccum := 0; rLpAccum := 0 |}).
Proof.
  apply (renderFrame_idle_silence defaultSettings 1).
  apply Forall_replicate. reflexivity.
Defined.

(** ** The pool invariant *)

Lemma heldCount_map_le (n : Z) (f : PolyphonicVoice -> PolyphonicVoice)
    (vs : list PolyphonicVoice) :
  (forall v, holds n (f v) = true -> holds n v = true) ->
  (heldCount n (List.map f vs) <= heldCount n vs)%nat.
Proof.
  intros Hf. induction vs as [|v vs IH]; [reflexivity|].
  cbn [List.map]. rewrite !heldCount_cons.
  specialize (Hf v). unfold b2n.
  destruct (holds n (f v)), (holds n v); try lia;
    try discriminate (Hf eq_refl).
Qed.

Lemma PoolInv_initial : PoolInv initialVoices.
Proof.
  split; [reflexivity|]. split.
  - apply Forall_replicate. left. reflexivity.
  - intros n. replace (heldCount n initialVoices) with 0%nat; [lia|].
    symmetry. apply heldCount_zero. apply Forall_replicate.
    unfold holds. simpl. rewrite Rgtb_false by lra. apply andb_false_r.
Qed.

Lemma PoolInv_setNoteOn (n : Z) (t : R) (vs : list PolyphonicVoice) :
  PoolInv vs -> PoolInv (setNoteOn n t vs).
Proof.
  intros (Hlen & Hgate & Hheld).
  destruct (noteAlreadyDown vs n) eqn:Hdown.
  - unfold setNoteOn. rewrite Hdown. repeat split; assumption.
  - destruct (setNoteOn_fresh n t vs ltac:(rewrite Hlen; unfold NUM_VOICES; lia)
                Hdown) as (k & v & Hk & Hv & _ & ->).
    pose proof (noteAlreadyDown_false vs n ltac:(lia) Hdown) as Hnone.
    split; [rewrite length_alter; exact Hlen|]. split.
    + apply Forall_lookup_2. intros j w Hw.
      destruct (Nat.eq_dec k j) as [<- | Hne].
      * rewrite list_lookup_alter_eq, Hv in Hw. injection Hw as <-.
        right. reflexivity.
      * rewrite list_lookup_alter_ne in Hw by exact Hne.
        rewrite Forall_lookup in Hgate. apply (Hgate j w Hw).
    + intros m.
      pose proof (heldCount_alter m (pressVoice n t) vs k v Hv) as Hc.
      destruct (Z.eq_dec m n) as [-> | Hmn].
      * rewrite holds_pressVoice in Hc.
        pose proof (proj2 (heldCount_zero n vs) Hnone). simpl in Hc. lia.
      * replace (holds m (pressVoice n t v)) with false in Hc.
        -- specialize (Hheld m). simpl in Hc. lia.
        -- symmetry. unfold holds, pressVoice. simpl.
           replace (n =? m)%Z with false by (symmetry; apply Z.eqb_neq; lia).
           reflexivity.
Qed.

Lemma PoolInv_noteOff (n : Z) (t : R) (vs : list PolyphonicVoice) :
  PoolInv vs -> exists vs', noteOff n t vs = Some vs' /\ PoolInv vs'.
Proof.
  intros (Hlen & Hgate & Hheld).
  exists (List.map (releaseIfHolds n t) vs).
  split; [apply noteOff_eq; lia|].
  split; [rewrite length_map; exact Hlen|]. split.
  - apply Forall_forall. intros w Hw.
    apply list_elem_of_In, in_map_iff in Hw. destruct Hw as (v & <- & Hin).
    unfold releaseIfHolds. destruct (holds n v).
    + left. reflexivity.
    + rewrite Forall_forall in Hgate. apply Hgate.
      apply list_elem_of_In. exact Hin.
  - intros m.
    pose proof (heldCount_map_le m (releaseIfHolds n t) vs) as Hle.
    specialize (Hheld m).
    assert (heldCount m (List.map (releaseIfHolds n t) vs) <= heldCount m vs)%nat.
    { apply Hle. intros v. unfold releaseIfHolds.
      destruct (holds n v); [rewrite holds_releaseVoice; discriminate | auto]. }
    lia.
Qed.

Lemma holds_stageVoice (n : Z) (t : R) (v : PolyphonicVoice) :
  holds n (stageVoice t v) = holds n v.
Proof.
  destruct (stageVoice_fields t v) as (H1 & _ & H3 & _).
  unfold holds. rewrite H1, H3. reflexivity.
Qed.

Lemma PoolInv_renderFrame (s : Settings) (t : R) (st : Synth) :
  PoolInv (voices st) -> PoolInv (voices (snd (renderFrame s t st))).
Proof.
  intros (Hlen & Hgate & Hheld).
  rewrite renderFrame_voices by lia.
  split; [rewrite length_fmap; exact Hlen|]. split.
  - apply Forall_fmap. eapply Forall_impl; [exact Hgate|].
    intros v Hv. unfold gateOK, compose in *.
    destruct (stageVoice_fields t v) as (_ & _ & -> & _). exact Hv.
  - intros m. specialize (Hheld m).
    pose proof (heldCount_map_le m (stageVoice t) (voices st)) as Hle.
    assert (heldCount m (List.map (stageVoice t) (voices st))
            <= heldCount m (voices st))%nat.
    { apply Hle. intros v. rewrite holds_stageVoice. auto. }
    change (stageVoice t <$> voices st)
      with (List.map (stageVoice t) (voices st)).
    lia.
Qed.

(** X23.  The pool invariant is kept by every sequence of note-on, note-off
    and frame-render calls: the run never gets stuck in the note-off loop,
    and afterwards the pool still has [NUM_VOICES] slots, every gate is
    exactly 0 or exactly 1, and no note is held by two voices. *)
Theorem events_keep_pool_invariant (es : list Event) (st : Synth) :
  PoolInv (voices st) ->
  exists st', runEvents es st = Some st' /\ PoolInv (voices st').
Proof.
  revert st. induction es as [|e es IH]; intros st Hinv.
  - exists st. split; [reflexivity | exact Hinv].
  - cbn [runEvents]. destruct e as [n t | n t | s t]; cbn [applyEvent].
    + cbn [mbind option_bind]. apply IH. cbn [voices].
      apply PoolInv_setNoteOn. exact Hinv.
    + destruct (PoolInv_noteOff n t (voices st) Hinv) as (vs' & -> & Hinv').
      cbn [mbind option_bind]. apply IH. exact Hinv'.
    + cbn [mbind option_bind]. apply IH.
      apply PoolInv_renderFrame. exact Hinv.
Qed.

Lemma events_keep_pool_invariant_example :
  exists st',
    runEvents (EvNoteOn 60 0 :: EvNoteOn 60 0.1 :: EvFrame defaultSettings 0.2
                 :: EvNoteOff 60 0.5 :: EvFrame defaultSettings 0.7 :: nil)
      initialSynth = Some st' /\
    PoolInv (voices st').
Proof.
  apply (events_keep_pool_invariant _ initialSynth). apply PoolInv_initial.
Defined.

(** ** The visualisation *)

(** X24.  For a voice whose gate is exactly 0 or exactly 1 (every voice of a
    pool that satisfies the invariant), the attenuation shown by the
    visualisation, which tests the gate against 0, is the attenuation the
    sample stage applies, which tests it against 0.25. *)
Theorem displayAttenuation_matches_stage (v : PolyphonicVoice) (t : R) :
  gateOK v ->
  displayAttenuation v t = fst (voiceAttenuation v t).
Proof.
  intros [Hg | Hg]; unfold displayAttenuation, voiceAttenuation; rewrite Hg.
  - destruct (Req_dec_T 0 0) as [_ | N]; [|congruence].
    destruct (Rgt_dec 0 0.25); [lra|].
    match goal with |- context [if ?b then _ else _] => destruct b end;
      reflexivity.
  - destruct (Req_dec_T 1 0) as [E | _]; [lra|].
    destruct (Rgt_dec 1 0.25); [reflexivity | lra].
Qed.

Lemma displayAttenuation_matches_stage_example :
  displayAttenuation (heldVoice 60) 0.3
  = fst (voiceAttenuation (heldVoice 60) 0.3).
Proof.
  apply (displayAttenuation_matches_stage (heldVoice 60) 0.3).
  right. reflexivity.
Defined.

(** ** Output level *)

Lemma voiceAttenuation_unit (v : PolyphonicVoice) (t : R) :
  0 <= fst (voiceAttenuation v t) <= 1.
Proof.
  unfold voiceAttenuation. destruct (Rgt_dec (volume v) 0.25).
  - cbn [fst]. apply ads_unit_range. simpl. lra.
  - assert (H : 0 <= getRAttenuation defaultCurve (t - releaseTime v) <= 1).
    { unfold getRAttenuation. simpl.
      pose proof (clamp_range (1 - (t - releaseTime v) / 0.1) 0 1 ltac:(lra)).
      split; nra. }
    match goal with |- context [if ?b then _ else _] => destruct b end;
      exact H.
Qed.

Lemma scaled_sample_bound (x a m : R) :
  Rabs x <= 1 -> 0 <= a <= 1 -> Rabs m <= 1 -> Rabs (x * a * m) <= 1.
Proof.
  intros Hx Ha Hm. rewrite !Rabs_mult, (Rabs_pos_eq a) by lra.
  pose proof (Rabs_pos x). pose proof (Rabs_pos m).
  assert (Rabs x * a <= 1) by nra. nra.
Qed.

Lemma wave_plain_bounded (s : Settings) :
  currWaveFunc s = W_Sine \/ currWaveFunc s = W_Square ->
  forall t f, Rabs (waveFuncs (currWaveFunc s) t f) <= 1.
Proof.
  intros [-> | ->] t f; simpl; [apply sine_bounded | apply square_bounded].
Qed.

Lemma abs_div_order (x : R) (z : Z) :
  (0 < z)%Z -> Rabs x <= 0 + INR (Z.to_nat z) -> Rabs (x / IZR z) <= 1.
Proof.
  intros Hz Hx. rewrite INR_IZR_INZ, Z2Nat.id in Hx by lia.
  assert (Hpos : 0 < IZR z) by (apply IZR_lt; lia).
  unfold Rdiv.
  rewrite Rabs_mult, (Rabs_pos_eq (/ IZR z))
    by (left; apply Rinv_0_lt_compat; exact Hpos).
  apply (Rmult_le_reg_r (IZR z)); [exact Hpos|].
  rewrite Rmult_assoc, Rinv_l by lra. lra.
Qed.

Lemma rawSample_bound (s : Settings) (v : PolyphonicVoice) (t : R) :
  plainSettings s ->
  Rabs (fst (rawSample s v t)) <= 1 /\ Rabs (snd (rawSample s v t)) <= 1.
Proof.
  intros (Hw & _ & Ho & _). pose proof (wave_plain_bounded s Hw) as Hwf.
  unfold rawSample. destruct (unisonDetune s).
  - unfold doUnisonDetune. cbn [fst snd].
    destruct (unisonLoop_bound s t (freq v) _ Hwf
                (Z.to_nat (unisonOrder s)) 0 (0, 0) 0 ltac:(lia) ltac:(lia))
      as [H1 H2]; try (simpl; rewrite Rabs_R0; lra).
    split; apply abs_div_order; assumption.
  - cbn [fst snd]. split; apply Hwf.
Qed.

Lemma getVoiceSample_bound (s : Settings) (st : Synth) (i : nat) (t : R) :
  plainSettings s ->
  let b := match voices st !! i with
           | Some v => if finishedPlaying v then 0 else 1
           | None => 0
           end in
  Rabs (fst (fst (getVoiceSample s st i t))) <= b /\
  Rabs (snd (fst (getVoiceSample s st i t))) <= b.
Proof.
  intros Hp b. unfold b, getVoiceSample.
  destruct (voices st !! i) as [v|];
    [|cbn [fst snd]; rewrite Rabs_R0; split; lra].
  destruct (finishedPlaying v);
    [cbn [fst snd]; rewrite Rabs_R0; split; lra|].
  pose proof (rawSample_bound s v t Hp) as [Hl Hr].
  pose proof (voiceAttenuation_unit v t) as Ha.
  destruct Hp as (_ & Hm & _ & -> & ->).
  destruct (rawSample s v t) as [l r].
  destruct (voiceAttenuation v t) as [a v']. cbn [fst snd] in *.
  split; apply scaled_sample_bound; assumption.
Qed.

Lemma unfinishedCount_cons (v : PolyphonicVoice) (vs : list PolyphonicVoice) :
  unfinishedCount (v :: vs)
  = ((if finishedPlaying v then 0 else 1) + unfinishedCount vs)%nat.
Proof. unfold unfinishedCount. simpl. destruct (finishedPlaying v); reflexivity. Qed.

Lemma mixVoices_bound (s : Settings) (t : R) (n : nat) :
  plainSettings s ->
  forall (j : nat) (l r : R) (st : Synth),
    let c := INR (unfinishedCount (take n (drop j (voices st)))) in
    Rabs (fst (fst (mixVoices s t n j (l, r) st))) <= Rabs l + 0.25 * c /\
    Rabs (snd (fst (mixVoices s t n j (l, r) st))) <= Rabs r + 0.25 * c.
Proof.
  intros Hp. induction n as [|n IH]; intros j l r st c.
  - unfold c. simpl. split; lra.
  - cbn [mixVoices].
    pose proof (getVoiceSample_bound s st j t Hp) as Hb.
    pose proof (getVoiceSample_voices s st j t) as Hv.
    destruct (getVoiceSample s st j t) as [[lj rj] st']. cbn [fst snd] in *.
    specialize (IH (S j) (l + lj * 0.25) (r + rj * 0.25) st').
    cbn zeta in IH. rewrite Hv, drop_alter_lt in IH by lia.
    destruct IH as [IHl IHr]. unfold c.
    destruct (voices st !! j) as [v|] eqn:Hj.
    + rewrite (drop_S _ _ _ Hj). cbn [take]. rewrite unfinishedCount_cons.
      rewrite plus_INR.
      set (c' := INR (unfinishedCount (take n (drop (S j) (voices st))))) in *.
      destruct Hb as [Hbl Hbr].
      pose proof (Rabs_triang l (lj * 0.25)) as Tl.
      pose proof (Rabs_triang r (rj * 0.25)) as Tr.
      rewrite Rabs_mult, (Rabs_pos_eq 0.25) in Tl, Tr by lra.
      destruct (finishedPlaying v); simpl INR in *; split; lra.
    + apply lookup_ge_None_1 in Hj.
      rewrite drop_ge in IHl, IHr by lia. rewrite drop_ge by lia.
      rewrite take_nil in *. simpl in *.
      destruct Hb as [Hbl Hbr].
      pose proof (Rabs_triang l (lj * 0.25)) as Tl.
      pose proof (Rabs_triang r (rj * 0.25)) as Tr.
      rewrite Rabs_mult, (Rabs_pos_eq 0.25) in Tl, Tr by lra.
      split; lra.
Qed.

(** X25.  With a sine or square generator, master volume of magnitude at
    most 1, positive unison order and both effects off, each channel of a
    rendered frame is bounded in magnitude by 0.25 times the number of
    unfinished voices: at most 4 in any case, and at most 1 (no clipping)
    while no more than four voices are unfinished. *)
Theorem renderFrame_headroom (s : Settings) (t : R) (st : Synth) :
  plainSettings s ->
  length (voices st) = NUM_VOICES ->
  let frame := fst (renderFrame s t st) in
  let c := INR (unfinishedCount (voices st)) in
  Rabs (fst frame) <= 0.25 * c /\ Rabs (snd frame) <= 0.25 * c /\
  0.25 * c <= 4 /\
  ((unfinishedCount (voices st) <= 4)%nat ->
   Rabs (fst frame) <= 1 /\ Rabs (snd frame) <= 1).
Proof.
  intros Hp Hlen frame c.
  pose proof (mixVoices_bound s t NUM_VOICES Hp 0 0 0 st) as Hb.
  cbn zeta in Hb. rewrite drop_0, take_ge in Hb by lia.
  rewrite Rabs_R0 in Hb. fold (renderFrame s t st) in Hb.
  fold frame in Hb. fold c in Hb. destruct Hb as [Hl Hr].
  assert (Hc : c <= 16).
  { unfold c. replace 16 with (INR 16) by (simpl; lra). apply le_INR.
    unfold unfinishedCount.
    pose proof (List.filter_length_le
                  (fun v => negb (finishedPlaying v)) (voices st)).
    unfold NUM_VOICES in Hlen. lia. }
  split; [lra|]. split; [lra|]. split; [lra|].
  intros H4. assert (c <= 4).
  { unfold c. replace 4 with (INR 4) by (simpl; lra). apply le_INR. exact H4. }
  split; lra.
Qed.

Lemma plainSettings_default : plainSettings defaultSettings.
Proof.
  unfold plainSettings. simpl. repeat split; try reflexivity.
  - left. reflexivity.
  - rewrite Rabs_R1. lra.
Qed.

Lemma renderFrame_headroom_example :
  let frame := fst (renderFrame defaultSettings 1 initialSynth) in
  let c := INR (unfinishedCount (voices initialSynth)) in
  Rabs (fst frame) <= 0.25 * c /\ Rabs (snd frame) <= 0.25 * c /\
  0.25 * c <= 4 /\
  ((unfinishedCount (voices initialSynth) <= 4)%nat ->
   Rabs (fst frame) <= 1 /\ Rabs (snd frame) <= 1).
Proof.
  apply (renderFrame_headroom defaultSettings 1 initialSynth).
  - apply plainSettings_default.
  - reflexivity.
Defined.

(** ** The render callback *)

Lemma frameBody_eq (d : Device) (s : Settings) (i : Z) (m : Mixer) :
  let sampleTime :=
    IZR (Z.quot i (nChannels d)) / IZR (currentSampleRate d)
    + timeAccumulator m in
  let out := renderFrame s sampleTime (synth m) in
  let l := fst (fst out) in
  let r := snd (fst out) in
  frameBody d s i m =
  {| synth := snd out;
     timeAccumulator := timeAccumulator m;
     hasClipped :=
       if orb (Rgtb l 1) (if Rlt_dec l (-1) then true else false)
       then true else hasClipped m;
     maxAmplitude := max (abs l) (maxAmplitude m);
     stream := <[Z.to_nat (i + 1) := r]> (<[Z.to_nat i := l]> (stream m));
     lastBufferL := <[Z.to_nat (Z.quot i (nChannels d)) := l]> (lastBufferL m);
     lastBufferR := <[Z.to_nat (Z.quot i (nChannels d)) := r]> (lastBufferR m) |}.
Proof.
  cbn zeta. unfold frameBody, renderFrame.
  destruct (mixVoices s _ NUM_VOICES 0 (0, 0) (synth m)) as [[l r] st].
  reflexivity.
Qed.

(** A property kept by every pass of the frame loop holds when the loop is
    left. *)
Lemma callbackLoop_invariant (P : Mixer -> Prop) (d : Device) (s : Settings)
    (sampleLen : Z) :
  (forall i m, P m -> P (frameBody d s i m)) ->
  forall fuel i m, P m -> P (callbackLoop d s sampleLen fuel i m).
Proof.
  intros Hstep. induction fuel as [|fuel IH]; intros i m Hm; [exact Hm|].
  cbn [callbackLoop]. destruct (i <? sampleLen)%Z; [|exact Hm].
  apply IH. apply Hstep. exact Hm.
Qed.

Lemma clip_step (l mx : R) (hc : bool) :
  (hc = true <-> mx > 1) -> 0 <= mx ->
  ((if orb (Rgtb l 1) (if Rlt_dec l (-1) then true else false)
    then true else hc) = true <-> max (abs l) mx > 1) /\
  0 <= max (abs l) mx.
Proof.
  intros Hiff Hmx. unfold abs.
  pose proof (Rabs_pos l) as Hpos.
  destruct (max_cases (Rabs l) mx) as [[Hgt ->] | [Hle ->]].
  - split; [|lra]. unfold Rgtb.
    destruct (Rgt_dec l 1) as [H1 | H1]; cbn [orb].
    + split; [intros _ | reflexivity]. rewrite Rabs_pos_eq by lra. lra.
    + destruct (Rlt_dec l (-1)) as [H2 | H2].
      * split; [intros _ | reflexivity]. rewrite Rabs_left by lra. lra.
      * assert (Rabs l <= 1) by (apply Rabs_le; lra).
        split; [intros Hc; apply Hiff in Hc; lra | lra].
  - split; [|lra]. unfold Rgtb.
    destruct (Rgt_dec l 1) as [H1 | H1]; cbn [orb].
    + split; [intros _ | reflexivity].
      rewrite Rabs_pos_eq in Hle by lra. lra.
    + destruct (Rlt_dec l (-1)) as [H2 | H2].
      * split; [intros _ | reflexivity].
        rewrite Rabs_left in Hle by lra. lra.
      * exact Hiff.
Qed.

(** X26.  After every callback the two diagnostics agree and the peak is
    not negative: the clip flag is set exactly when the recorded peak
    amplitude exceeds 1. *)
Theorem audioCallback_diagnostics (d : Device) (s : Settings) (len : Z)
    (m : Mixer) :
  (hasClipped (audioCallback d s len m) = true
   <-> maxAmplitude (audioCallback d s len m) > 1) /\
  0 <= maxAmplitude (audioCallback d s len m).
Proof.
  unfold audioCallback. cbn [hasClipped maxAmplitude].
  apply (callbackLoop_invariant
           (fun m => (hasClipped m = true <-> maxAmplitude m > 1)
                     /\ 0 <= maxAmplitude m)).
  - intros i m0 [Hiff Hmx]. rewrite frameBody_eq.
    cbn [hasClipped maxAmplitude]. apply clip_step; assumption.
  - cbn [hasClipped maxAmplitude]. split; [|lra].
    split; [discriminate | lra].
Qed.

Lemma callbackLoop_fuel (d : Device) (s : Settings) (sampleLen : Z) :
  (0 < nChannels d)%Z ->
  forall (f1 f2 : nat) (i : Z) (m : Mixer),
    (sampleLen - i <= Z.of_nat f1)%Z -> (sampleLen - i <= Z.of_nat f2)%Z ->
    callbackLoop d s sampleLen f1 i m = callbackLoop d s sampleLen f2 i m.
Proof.
  intros Hc. induction f1 as [|f1 IH]; intros f2 i m H1 H2.
  - destruct f2 as [|f2]; [reflexivity|]. cbn [callbackLoop].
    destruct (Z.ltb_spec i sampleLen); [lia | reflexivity].
  - cbn [callbackLoop]. destruct (Z.ltb_spec i sampleLen) as [Hlt | Hge].
    + destruct f2 as [|f2]; [lia|]. cbn [callbackLoop].
      destruct (Z.ltb_spec i sampleLen); [|lia].
      apply IH; lia.
    + destruct f2 as [|f2]; [reflexivity|]. cbn [callbackLoop].
      destruct (Z.ltb_spec i sampleLen); [lia | reflexivity].
Qed.

(** X27.  A callback on a device with a positive channel count and a pool
    that satisfies the invariant: the frame loop ends within the fuel it is
    given (more fuel changes nothing); the clock advances by exactly the
    number of frames divided by the sample rate; the buffer keeps its
    length; the two compressor accumulators are as before; and the pool
    still satisfies the invariant. *)
Theorem audioCallback_state (d : Device) (s : Settings) (len : Z) (m : Mixer) :
  (0 < nChannels d)%Z ->
  PoolInv (voices (synth m)) ->
  let m' := audioCallback d s len m in
  (forall fuel i m1, (len / 4 - i <= Z.of_nat fuel)%Z ->
     callbackLoop d s (len / 4) fuel i m1
     = callbackLoop d s (len / 4) (Z.to_nat (len / 4 - i)) i m1) /\
  timeAccumulator m'
    = timeAccumulator m
      + IZR (Z.quot (len / 4) (nChannels d)) / IZR (currentSampleRate d) /\
  length (stream m') = length (stream m) /\
  lLpAccum (synth m') = lLpAccum (synth m) /\
  rLpAccum (synth m') = rLpAccum (synth m) /\
  PoolInv (voices (synth m')).
Proof.
  intros Hc Hinv m'. split.
  { intros fuel i m1 Hf. apply callbackLoop_fuel; [exact Hc | exact Hf | lia]. }
  unfold m', audioCallback.
  cbn [timeAccumulator stream synth].
  set (m0 := {| synth := synth m; timeAccumulator := timeAccumulator m;
                hasClipped := false; maxAmplitude := 0; stream := stream m;
                lastBufferL := lastBufferL m; lastBufferR := lastBufferR m |}).
  pose proof (callbackLoop_invariant
    (fun x => timeAccumulator x = timeAccumulator m /\
              length (stream x) = length (stream m) /\
              lLpAccum (synth x) = lLpAccum (synth m) /\
              rLpAccum (synth x) = rLpAccum (synth m) /\
              PoolInv (voices (synth x)))
    d s (len / 4)) as Hloop.
  destruct (Hloop) with (fuel := Z.to_nat (len / 4)) (i := 0%Z) (m := m0)
    as (Ht & Hl & Ha & Hb & Hp).
  - intros i x (Ht & Hl & Ha & Hb & Hp). rewrite frameBody_eq.
    cbn [timeAccumulator stream synth].
    destruct (mixVoices_accumulators s
                (IZR (Z.quot i (nChannels d)) / IZR (currentSampleRate d)
                 + timeAccumulator x) NUM_VOICES 0 (0, 0) (synth x))
      as [Ha' Hb'].
    fold (renderFrame s (IZR (Z.quot i (nChannels d))
                         / IZR (currentSampleRate d) + timeAccumulator x)
            (synth x)) in Ha', Hb'.
    repeat split.
    + exact Ht.
    + rewrite !length_insert. exact Hl.
    + congruence.
    + congruence.
    + apply PoolInv_renderFrame. exact Hp.
    + apply PoolInv_renderFrame. exact Hp.
    + apply PoolInv_renderFrame. exact Hp.
  - unfold m0. cbn [timeAccumulator stream synth]. repeat split; apply Hinv.
  - rewrite Ht. repeat split; try assumption; apply Hp.
Qed.

Lemma audioCallback_state_example :
  let m' := audioCallback defaultDevice defaultSettings 4096 (initialMixer 1024 7) in
  (forall fuel i m1, (4096 / 4 - i <= Z.of_nat fuel)%Z ->
     callbackLoop defaultDevice defaultSettings (4096 / 4) fuel i m1
     = callbackLoop defaultDevice defaultSettings (4096 / 4)
         (Z.to_nat (4096 / 4 - i)) i m1) /\
  timeAccumulator m'
    = timeAccumulator (initialMixer 1024 7)
      + IZR (Z.quot (4096 / 4) (nChannels defaultDevice))
        / IZR (currentSampleRate defaultDevice) /\
  length (stream m') = length (stream (initialMixer 1024 7)) /\
  lLpAccum (synth m') = lLpAccum (synth (initialMixer 1024 7)) /\
  rLpAccum (synth m') = rLpAccum (synth (initialMixer 1024 7)) /\
  PoolInv (voices (synth m')).
Proof.
  apply (audioCallback_state defaultDevice defaultSettings 4096
           (initialMixer 1024 7)).
  - simpl. lia.
  - apply PoolInv_initial.
Defined.

Lemma insert_zero_lookup (l : list R) (k j : nat) :
  (j < length l)%nat -> j = k \/ l !! j = Some 0 ->
  <[k := 0]> l !! j = Some 0.
Proof.
  intros Hj [-> | H].
  - apply list_lookup_insert_eq. exact Hj.
  - destruct (Nat.eq_dec k j) as [-> | Hne].
    + apply list_lookup_insert_eq. exact Hj.
    + rewrite list_lookup_insert_ne by exact Hne. exact H.
Qed.

Lemma frameBody_idle (d : Device) (s : Settings) (i : Z) (m : Mixer) :
  Forall (fun v => finishedPlaying v = true) (voices (synth m)) ->
  hasClipped m = false -> maxAmplitude m = 0 ->
  synth (frameBody d s i m) = synth m /\
  hasClipped (frameBody d s i m) = false /\
  maxAmplitude (frameBody d s i m) = 0 /\
  stream (frameBody d s i m)
  = <[Z.to_nat (i + 1) := 0]> (<[Z.to_nat i := 0]> (stream m)).
Proof.
  intros Hidle Hc Hm. rewrite frameBody_eq.
  cbn [synth hasClipped maxAmplitude stream].
  unfold renderFrame. rewrite mixVoices_idle by exact Hidle. cbn [fst snd].
  rewrite Hc, Hm. unfold abs. rewrite Rabs_R0.
  repeat split.
  - rewrite Rgtb_false by lra. destruct (Rlt_dec 0 (-1)); [lra | reflexivity].
  - unfold max. destruct (Rgt_dec 0 0); reflexivity.
Qed.

Lemma callbackLoop_idle (d : Device) (s : Settings) (sampleLen : Z)
    (st : Synth) (len : nat) :
  nChannels d = 2%Z ->
  Forall (fun v => finishedPlaying v = true) (voices st) ->
  forall (fuel : nat) (i : Z) (m : Mixer),
    (0 <= i)%Z -> (sampleLen - i <= Z.of_nat fuel)%Z ->
    synth m = st -> hasClipped m = false -> maxAmplitude m = 0 ->
    length (stream m) = len ->
    (forall j, (Z.of_nat j < i)%Z -> (j < len)%nat -> stream m !! j = Some 0) ->
    let m' := callbackLoop d s sampleLen fuel i m in
    synth m' = st /\ hasClipped m' = false /\ maxAmplitude m' = 0 /\
    length (stream m') = len /\
    (forall j, (Z.of_nat j < sampleLen)%Z -> (j < len)%nat ->
               stream m' !! j = Some 0).
Proof.
  intros Hc Hidle. induction fuel as [|fuel IH];
    intros i m Hi Hf Hs Hcl Hmx Hlen Hz; cbn zeta.
  - cbn [callbackLoop]. repeat split; try assumption.
    intros j Hj. apply Hz. lia.
  - cbn [callbackLoop]. destruct (Z.ltb_spec i sampleLen) as [Hlt | Hge].
    + rewrite Hc.
      destruct (frameBody_idle d s i m ltac:(rewrite Hs; exact Hidle) Hcl Hmx)
        as (Hs' & Hcl' & Hmx' & Hst').
      apply IH; try lia; try assumption.
      * congruence.
      * rewrite Hst', !length_insert. exact Hlen.
      * intros j Hj Hjl. rewrite Hst'.
        apply insert_zero_lookup; [rewrite length_insert; lia|].
        destruct (Nat.eq_dec j (Z.to_nat (i + 1))) as [-> | Hne1];
          [left; reflexivity | right].
        apply insert_zero_lookup; [lia|].
        destruct (Nat.eq_dec j (Z.to_nat i)) as [-> | Hne2];
          [left; reflexivity | right].
        apply Hz; lia.
    + repeat split; try assumption.
      intros j Hj. apply Hz. lia.
Qed.

(** X28.  A stereo callback on a pool whose voices are all finished writes
    silence: every cell of the buffer below the sample count is 0 afterwards,
    whatever it held before, the clip flag is off, the peak is 0 and the
    synthesis state is as before. *)
Theorem audioCallback_idle_silence (d : Device) (s : Settings) (len : Z)
    (m : Mixer) :
  nChannels d = 2%Z ->
  Forall (fun v => finishedPlaying v = true) (voices (synth m)) ->
  let m' := audioCallback d s len m in
  synth m' = synth m /\ hasClipped m' = false /\ maxAmplitude m' = 0 /\
  forall j, (Z.of_nat j < len / 4)%Z -> (j < length (stream m))%nat ->
            stream m' !! j = Some 0.
Proof.
  intros Hc Hidle m'. unfold m', audioCallback.
  cbn [synth hasClipped maxAmplitude stream].
  set (m0 := {| synth := synth m; timeAccumulator := timeAccumulator m;
                hasClipped := false; maxAmplitude := 0; stream := stream m;
                lastBufferL := lastBufferL m; lastBufferR := lastBufferR m |}).
  destruct (callbackLoop_idle d s (len / 4) (synth m) (length (stream m))
              Hc Hidle (Z.to_nat (len / 4)) 0 m0)
    as (H1 & H2 & H3 & _ & H5); try reflexivity; try lia.
  repeat split; assumption.
Qed.

Lemma audioCallback_idle_silence_example :
  let m' := audioCallback defaultDevice defaultSettings 4096 (idleMixer 1024 7) in
  synth m' = synth (idleMixer 1024 7) /\ hasClipped m' = false /\
  maxAmplitude m' = 0 /\
  forall j, (Z.of_nat j < 4096 / 4)%Z ->
            (j < length (stream (idleMixer 1024 7)))%nat ->
            stream m' !! j = Some 0.
Proof.
  apply (audioCallback_idle_silence defaultDevice defaultSettings 4096
           (idleMixer 1024 7)).
  - reflexivity.
  - apply Forall_replicate. reflexivity.
Defined.


(** ** Input handlers *)

Lemma layer_1 (key offset : Z) : (key + (0 + 12) + offset = key + offset + 12)%Z.
Proof. lia. Qed.

Lemma layer_2 (key offset : Z) :
  (key + (0 + 12 + 12) + offset = key + offset + 24)%Z.
Proof. lia. Qed.

Lemma layer_3 (key offset : Z) :
  (key + (0 + 12 + 12 + 12) + offset = key + offset + 36)%Z.
Proof. lia. Qed.

Lemma midiOnLoop_keyDown (o : OctaveMode) (key offset : Z) (t : R)
    (vs : list PolyphonicVoice) :
  midiOnLoop (Z.to_nat (octaveInt o)) key 0 offset t
    (setNoteOn (key + offset) t vs)
  = keyDown o (key + offset) t vs.
Proof.
  unfold keyDown. destruct o; cbn [octaveInt].
  - change (Z.to_nat 0) with 0%nat. reflexivity.
  - change (Z.to_nat 1) with 1%nat. cbn [midiOnLoop].
    rewrite (layer_1 key offset). reflexivity.
  - change (Z.to_nat 2) with 2%nat. cbn [midiOnLoop].
    rewrite (layer_1 key offset), (layer_2 key offset). reflexivity.
  - change (Z.to_nat 3) with 3%nat. cbn [midiOnLoop].
    rewrite (layer_1 key offset), (layer_2 key offset), (layer_3 key offset).
    reflexivity.
Qed.

Lemma midiOffLoop_keyUp (o : OctaveMode) (key offset : Z) (t : R)
    (vs : list PolyphonicVoice) :
  (noteOff (key + offset) t vs
     ≫= midiOffLoop (Z.to_nat (octaveInt o)) key 0 offset t)
  = keyUp o (key + offset) t vs.
Proof.
  unfold keyUp. destruct o; cbn [octaveInt].
  - change (Z.to_nat 0) with 0%nat. reflexivity.
  - change (Z.to_nat 1) with 1%nat.
    destruct (noteOff (key + offset) t vs) as [vs0|];
      cbn [mbind option_bind midiOffLoop]; [|reflexivity]. rewrite (layer_1 key offset).
    destruct (noteOff (key + offset + 12) t vs0); cbn [mbind option_bind];
      reflexivity.
  - change (Z.to_nat 2) with 2%nat.
    destruct (noteOff (key + offset) t vs) as [vs0|];
      cbn [mbind option_bind midiOffLoop]; [|reflexivity].
    rewrite (layer_1 key offset), (layer_2 key offset).
    destruct (noteOff (key + offset + 12) t vs0) as [vs1|];
      cbn [mbind option_bind]; [|reflexivity].
    destruct (noteOff (key + offset + 24) t vs1); cbn [mbind option_bind];
      reflexivity.
  - change (Z.to_nat 3) with 3%nat.
    destruct (noteOff (key + offset) t vs) as [vs0|];
      cbn [mbind option_bind midiOffLoop]; [|reflexivity].
    rewrite (layer_1 key offset), (layer_2 key offset), (layer_3 key offset).
    destruct (noteOff (key + offset + 12) t vs0) as [vs1|];
      cbn [mbind option_bind]; [|reflexivity].
    destruct (noteOff (key + offset + 24) t vs1) as [vs2|];
      cbn [mbind option_bind]; [|reflexivity].
    destruct (noteOff (key + offset + 36) t vs2); cbn [mbind option_bind];
      reflexivity.
Qed.

(** X29.  A three-byte MIDI message with status 144 does to the pool what
    the keyboard does for the note [key + offset] in the same octave mode:
    the key-down branch when the velocity is not 0, the key-up branch when
    it is 0.  A three-byte message with any other status, status 128
    included, leaves the pool as it is. *)
Theorem midiCallback_matches_keyboard (o : OctaveMode) (offset : Z) (t : R)
    (status key vel : Z) (vs : list PolyphonicVoice) :
  midiCallback o offset t (144 :: key :: vel :: nil)%Z vs
    = (if (vel =? 0)%Z then keyUp o (key + offset) t vs
       else Some (keyDown o (key + offset) t vs)) /\
  (status <> 144%Z ->
   midiCallback o offset t (status :: key :: vel :: nil) vs = Some vs).
Proof.
  split.
  - unfold midiCallback. change (144 =? 144)%Z with true. cbn iota.
    destruct (vel =? 0)%Z; cbn [negb].
    + apply midiOffLoop_keyUp.
    + f_equal. apply midiOnLoop_keyDown.
  - intros Hs. unfold midiCallback.
    replace (status =? 144)%Z with false by (symmetry; apply Z.eqb_neq; exact Hs).
    reflexivity.
Qed.

Lemma midiCallback_matches_keyboard_example :
  midiCallback Double 0 1 (144 :: 60 :: 100 :: nil)%Z initialVoices
    = (if (100 =? 0)%Z then keyUp Double (60 + 0) 1 initialVoices
       else Some (keyDown Double (60 + 0) 1 initialVoices)) /\
  (128%Z <> 144%Z ->
   midiCallback Double 0 1 (128 :: 60 :: 100 :: nil)%Z initialVoices
   = Some initialVoices).
Proof.
  apply (midiCallback_matches_keyboard Double 0 1 128 60 100 initialVoices).
Defined.

Lemma heldCount_map_same (m : Z) (f : PolyphonicVoice -> PolyphonicVoice)
    (vs : list PolyphonicVoice) :
  (forall v, holds m (f v) = holds m v) ->
  heldCount m (List.map f vs) = heldCount m vs.
Proof.
  intros Hf. induction vs as [|v vs IH]; [reflexivity|].
  cbn [List.map]. rewrite !heldCount_cons, Hf, IH. reflexivity.
Qed.

Lemma holds_releaseIfHolds_other (n m : Z) (t : R) (v : PolyphonicVoice) :
  n <> m -> holds m (releaseIfHolds n t v) = holds m v.
Proof.
  intros Hnm. unfold releaseIfHolds. destruct (holds n v) eqn:Hn; [|reflexivity].
  rewrite holds_releaseVoice. symmetry.
  apply (holds_two_notes n m v Hnm Hn).
Qed.

Lemma holds_releaseIfHolds_same (n : Z) (t : R) (v : PolyphonicVoice) :
  holds n (releaseIfHolds n t v) = false.
Proof.
  unfold releaseIfHolds. destruct (holds n v) eqn:Hn;
    [apply holds_releaseVoice | exact Hn].
Qed.

Lemma holds_releaseIfHolds_le (n m : Z) (t : R) (v : PolyphonicVoice) :
  holds m (releaseIfHolds n t v) = true -> holds m v = true.
Proof.
  unfold releaseIfHolds. destruct (holds n v);
    [rewrite holds_releaseVoice; discriminate | auto].
Qed.

Lemma releaseAll_length (ms : list Z) (t : R) :
  forall vs, length (releaseAll ms t vs) = length vs.
Proof.
  induction ms as [|a ms IH]; intros vs; [reflexivity|].
  unfold releaseAll in *. cbn [fold_left]. rewrite IH, length_map. reflexivity.
Qed.

Lemma releaseAll_le (m : Z) (ms : list Z) (t : R) :
  forall vs, (heldCount m (releaseAll ms t vs) <= heldCount m vs)%nat.
Proof.
  induction ms as [|a ms IH]; intros vs; [reflexivity|].
  unfold releaseAll in *. cbn [fold_left].
  etransitivity; [apply IH|].
  apply heldCount_map_le. apply holds_releaseIfHolds_le.
Qed.

Lemma releaseAll_clears (m : Z) (ms : list Z) (t : R) :
  In m ms -> forall vs, heldCount m (releaseAll ms t vs) = 0%nat.
Proof.
  induction ms as [|a ms IH]; intros Hin vs; [destruct Hin|].
  unfold releaseAll in *. cbn [fold_left].
  destruct (Z.eq_dec a m) as [-> | Hne].
  - pose proof (releaseAll_le m ms t (List.map (releaseIfHolds m t) vs)) as Hle.
    unfold releaseAll in Hle.
    assert (Hz : heldCount m (List.map (releaseIfHolds m t) vs) = 0%nat).
    { apply heldCount_zero. apply Forall_forall. intros w Hw.
      apply list_elem_of_In, in_map_iff in Hw. destruct Hw as (v & <- & _).
      apply holds_releaseIfHolds_same. }
    lia.
  - apply IH. destruct Hin as [E | Hin]; [congruence | exact Hin].
Qed.

Lemma releaseAll_others (m : Z) (ms : list Z) (t : R) :
  ~ In m ms -> forall vs, heldCount m (releaseAll ms t vs) = heldCount m vs.
Proof.
  induction ms as [|a ms IH]; intros Hin vs; [reflexivity|].
  unfold releaseAll in *. cbn [fold_left].
  rewrite IH by (intros H; apply Hin; right; exact H).
  apply heldCount_map_same. intros v.
  apply holds_releaseIfHolds_other. intros ->. apply Hin. left. reflexivity.
Qed.

Lemma keyUp_eq (o : OctaveMode) (n : Z) (t : R) (vs : list PolyphonicVoice) :
  (length vs <= NUM_VOICES)%nat ->
  keyUp o n t vs = Some (releaseAll (octaveLayers o n) t vs).
Proof.
  intros Hlen. unfold keyUp, releaseAll.
  rewrite (noteOff_eq n t vs Hlen). cbn [mbind option_bind].
  destruct o; cbn [octaveLayers fold_left]; [reflexivity| | |].
  - apply noteOff_eq. rewrite length_map. exact Hlen.
  - rewrite noteOff_eq by (rewrite length_map; exact Hlen).
    cbn [mbind option_bind].
    apply noteOff_eq. rewrite !length_map. exact Hlen.
  - rewrite noteOff_eq by (rewrite length_map; exact Hlen).
    cbn [mbind option_bind].
    rewrite noteOff_eq by (rewrite !length_map; exact Hlen).
    cbn [mbind option_bind].
    apply noteOff_eq. rewrite !length_map. exact Hlen.
Qed.

(** X30.  On a pool of [NUM_VOICES] slots the key-up branch always ends;
    afterwards no voice holds the note or any octave layer of the current
    mode, and every other note is held by as many voices as before.  A layer
    pressed under a wider mode than the one active at key-up is therefore
    not released. *)
Theorem keyUp_releases_current_layers (o : OctaveMode) (n : Z) (t : R)
    (vs : list PolyphonicVoice) :
  length vs = NUM_VOICES ->
  exists vs',
    keyUp o n t vs = Some vs' /\ length vs' = NUM_VOICES /\
    (forall m, In m (octaveLayers o n) -> heldCount m vs' = 0%nat) /\
    (forall m, ~ In m (octaveLayers o n) -> heldCount m vs' = heldCount m vs).
Proof.
  intros Hlen. exists (releaseAll (octaveLayers o n) t vs).
  split; [apply keyUp_eq; lia|].
  split; [rewrite releaseAll_length; exact Hlen|]. split.
  - intros m Hin. apply releaseAll_clears. exact Hin.
  - intros m Hin. apply releaseAll_others. exact Hin.
Qed.

Lemma keyUp_releases_current_layers_example :
  exists vs',
    keyUp Single 60 2 (keyDown Double 60 1 idlePool) = Some vs' /\
    length vs' = NUM_VOICES /\
    (forall m, In m (octaveLayers Single 60) -> heldCount m vs' = 0%nat) /\
    (forall m, ~ In m (octaveLayers Single 60) ->
               heldCount m vs' = heldCount m (keyDown Double 60 1 idlePool)).
Proof.
  apply (keyUp_releases_current_layers Single 60 2 (keyDown Double 60 1 idlePool)).
  unfold keyDown.
  rewrite (setNoteOn_alloc 60 1 idlePool 0) by (repeat constructor).
  cbn [alter list_alter idlePool replicate NUM_VOICES].
  rewrite (setNoteOn_alloc (60 + 12) 1 _ 1) by (repeat constructor).
  reflexivity.
Defined.

(** The remaining key handlers: the bit depth stays inside [1, 31] and
    saturates at both ends; the waveform and the octave mode each cycle
    through their four values. *)
Lemma crushBits_range (bits : R) :
  1 <= crushBitsUp bits <= 31 /\ 1 <= crushBitsDown bits <= 31 /\
  crushBitsUp 31 = 31 /\ crushBitsDown 1 = 1.
Proof.
  unfold crushBitsUp, crushBitsDown. repeat split;
    try (apply clamp_range; lra).
  - apply clamp_above; lra.
  - apply clamp_below; lra.
Qed.

Lemma nextWaveform_cycle (w : Waveform) :
  nextWaveform (nextWaveform (nextWaveform (nextWaveform w))) = w /\
  nextWaveform w <> w.
Proof. destruct w; split; (reflexivity || discriminate). Qed.

Lemma nextOctaveMode_cycle (o : OctaveMode) :
  nextOctaveMode (nextOctaveMode (nextOctaveMode (nextOctaveMode o))) = o /\
  octaveInt (nextOctaveMode o) = ((octaveInt o + 1) mod 4)%Z.
Proof. destruct o; split; reflexivity. Qed.
